(** * Tool-execution pipeline of the browser MCP server

    A shallow embedding of [src/server.ts] (the call-tool dispatcher and
    its modal-state gate) and of [src/tools/snapshot.ts] (the
    reference-carrying tools and the stale-reference resolver
    [handleStaleRef]), with the properties the specification states about
    them.

    Asynchronous functions are embedded as state transformers that either
    return a value or throw: a thrown exception keeps the mutations made
    before it, as in JavaScript. *)

From Stdlib Require Import String Ascii List Bool NArith ZArith Arith Lia.
From Stdlib Require Import DecimalString DecimalN DecimalPos.
From Stdlib Require DecimalFacts.
Import ListNotations.

Local Open Scope list_scope.
Local Open Scope string_scope.

(** ** JavaScript values the code handles *)

(** Truthiness of a string: only the empty string is falsy. *)
Definition truthy (s : string) : bool :=
  match s with
  | EmptyString => false
  | String _ _ => true
  end.

(** [a || b] on strings where [a] may be [undefined]. *)
Definition orElse (a : option string) (b : string) : string :=
  match a with
  | Some s => if truthy s then s else b
  | None => b
  end.

(** A JavaScript number as far as this code needs it: [NaN] or a
    non-negative integer.  JavaScript numbers are IEEE doubles, so [parseInt],
    [+ 1] and the template-literal rendering agree with the exact integer
    functions below only up to [MAX_SAFE_INTEGER]; the statements that
    depend on generation arithmetic are made on that range. *)
Inductive JsNumber : Type :=
| NaN
| Int (n : N).

Definition MAX_SAFE_INTEGER : N := 9007199254740991.

Definition isDigit (c : ascii) : bool :=
  let n := nat_of_ascii c in (48 <=? n)%nat && (n <=? 57)%nat.

Definition digitValue (c : ascii) : N := N.of_nat (nat_of_ascii c - 48).

Fixpoint parseDigits (acc : N) (s : string) : N :=
  match s with
  | String c r => if isDigit c then parseDigits (acc * 10 + digitValue c) r else acc
  | EmptyString => acc
  end.

(** [parseInt(s)] for a string without sign or leading blanks: the value of
    the leading run of decimal digits, [NaN] when there is none. *)
Definition parseInt (s : string) : JsNumber :=
  match s with
  | String c _ => if isDigit c then Int (parseDigits 0 s) else NaN
  | EmptyString => NaN
  end.

(** [n + 1]. *)
Definition plusOne (n : JsNumber) : JsNumber :=
  match n with
  | NaN => NaN
  | Int k => Int (k + 1)
  end.

(** Decimal rendering of a natural number, as a template literal prints it. *)
Definition showN (n : N) : string := NilEmpty.string_of_uint (N.to_uint n).

(** [`${n}`]. *)
Definition numberToString (n : JsNumber) : string :=
  match n with
  | NaN => "NaN"
  | Int k => showN k
  end.

(** ** Strings and the two regular expressions *)

(** [dropPrefix p s] is what follows [p] in [s] when [s] starts with [p]. *)
Fixpoint dropPrefix (p s : string) : option string :=
  match p with
  | EmptyString => Some s
  | String a p' =>
      match s with
      | String b s' => if Ascii.eqb a b then dropPrefix p' s' else None
      | EmptyString => None
      end
  end.

(** [s.startsWith(p)]. *)
Definition startsWith (s p : string) : bool :=
  match dropPrefix p s with
  | Some _ => true
  | None => false
  end.

(** The longest run of digits at the head of [s], and what follows it: a
    greedy [\d*]. *)
Fixpoint spanDigits (s : string) : string * string :=
  match s with
  | String c r =>
      if isDigit c
      then let (d, t) := spanDigits r in (String c d, t)
      else (EmptyString, s)
  | EmptyString => (EmptyString, EmptyString)
  end.

(** [/s(\d+)e/] anchored at the head of [s]; the capture group.  The group
    is greedy, and giving digits back cannot help: the character after a
    shorter run is a digit, not [e]. *)
Definition matchGenerationHere (s : string) : option string :=
  match s with
  | String c r =>
      if Ascii.eqb c "s"
      then
        match spanDigits r with
        | (String d ds, String c' _) =>
            if Ascii.eqb c' "e" then Some (String d ds) else None
        | _ => None
        end
      else None
  | EmptyString => None
  end.

(** [s.match(/s(\d+)e/)?.[1]]: the capture group of the leftmost match. *)
Fixpoint matchGeneration (s : string) : option string :=
  match matchGenerationHere s with
  | Some d => Some d
  | None =>
      match s with
      | String _ r => matchGeneration r
      | EmptyString => None
      end
  end.

(** [new RegExp(`ref=(${prefix}\\d+)`)] anchored at the head of [s]; the
    capture group.  [prefix] is spliced into the pattern as it is; the
    prefixes the resolver builds hold letters and digits only. *)
Definition matchRefHere (prefix s : string) : option string :=
  match dropPrefix ("ref=" ++ prefix) s with
  | Some rest =>
      match fst (spanDigits rest) with
      | EmptyString => None
      | String d ds => Some (prefix ++ String d ds)
      end
  | None => None
  end.

(** [s.match(new RegExp(`ref=(${prefix}\\d+)`))?.[1]]: leftmost match. *)
Fixpoint findRef (prefix s : string) : option string :=
  match matchRefHere prefix s with
  | Some r => Some r
  | None =>
      match s with
      | String _ r => findRef prefix r
      | EmptyString => None
      end
  end.

(** [lines.join(sep)]. *)
Fixpoint join (sep : string) (lines : list string) : string :=
  match lines with
  | [] => ""
  | [l] => l
  | l :: rest => l ++ sep ++ join sep rest
  end.

Definition newline : string := String (ascii_of_nat 10) EmptyString.

(** ** Exceptions and asynchronous functions *)

(** One issue of a [ZodError]. *)
Inductive ZodIssue : Type :=
| invalid_type (path : list string) (expected received : string)
| custom (path : list string) (message : string).

(** What the code throws, by the error kinds of the specification. *)
Inductive JsError : Type :=
| InvalidArgumentsError (issues : list ZodIssue)
| PreconditionError (message : string)
| StaleOrUnknownReferenceError (ref : string)
| ActionExecutionError (message : string).

Inductive Outcome (A : Type) : Type :=
| Returned (a : A)
| Threw (e : JsError).

Arguments Returned {A} a.
Arguments Threw {A} e.

(** An [async] function over a mutable store [S]. *)
Definition Async (S A : Type) : Type := S -> Outcome A * S.

Definition ret {S A : Type} (a : A) : Async S A := fun s => (Returned a, s).

Definition throw {S A : Type} (e : JsError) : Async S A := fun s => (Threw e, s).

Definition bind {S A B : Type} (m : Async S A) (k : A -> Async S B) : Async S B :=
  fun s =>
    match m s with
    | (Returned a, s') => k a s'
    | (Threw e, s') => (Threw e, s')
    end.

(** A synchronous call that may throw and touches no state. *)
Definition lift {S A : Type} (o : Outcome A) : Async S A := fun s => (o, s).

Declare Scope async_scope.
Delimit Scope async_scope with async.
Notation "x <- m ;; k" := (bind m (fun x => k))
  (at level 61, m at next level, right associativity) : async_scope.

(** ** Tool arguments and the zod schemas *)

(** The JSON values of [request.params.arguments]. *)
#[warnings="-register-all"]
Inductive JsValue : Type :=
| JsUndefined
| JsNull
| JsBoolean (b : bool)
| JsNum (n : N)
| JsString (s : string)
| JsArray (items : list JsValue)
| JsObject (fields : list (string * JsValue)).

(** The name zod gives the type of a value in an issue. *)
Definition typeName (v : JsValue) : string :=
  match v with
  | JsUndefined => "undefined"
  | JsNull => "null"
  | JsBoolean _ => "boolean"
  | JsNum _ => "number"
  | JsString _ => "string"
  | JsArray _ => "array"
  | JsObject _ => "object"
  end.

(** [object[key]], [undefined] when the key is absent. *)
Fixpoint getField (key : string) (fields : list (string * JsValue)) : JsValue :=
  match fields with
  | [] => JsUndefined
  | (k, v) :: rest => if String.eqb k key then v else getField key rest
  end.

(** A field parser returns the parsed value or the issues found. *)
Definition Parsed (A : Type) : Type := (A + list ZodIssue)%type.

(** [z.string()]. *)
Definition zString (path : list string) (v : JsValue) : Parsed string :=
  match v with
  | JsString s => inl s
  | _ => inr [invalid_type path "string" (typeName v)]
  end.

(** [z.string().optional()]. *)
Definition zStringOptional (path : list string) (v : JsValue) : Parsed (option string) :=
  match v with
  | JsUndefined => inl None
  | JsString s => inl (Some s)
  | _ => inr [invalid_type path "string" (typeName v)]
  end.

(** [z.boolean().optional()]. *)
Definition zBooleanOptional (path : list string) (v : JsValue) : Parsed (option bool) :=
  match v with
  | JsUndefined => inl None
  | JsBoolean b => inl (Some b)
  | _ => inr [invalid_type path "boolean" (typeName v)]
  end.

Fixpoint zStringItems (path : list string) (index : N) (items : list JsValue)
  : list string * list ZodIssue :=
  match items with
  | [] => ([], [])
  | v :: rest =>
      let (values, issues) := zStringItems path (index + 1) rest in
      match zString (path ++ [showN index])%list v with
      | inl s => (s :: values, issues)
      | inr here => (values, (here ++ issues)%list)
      end
  end.

(** [z.array(z.string())]. *)
Definition zStringArray (path : list string) (v : JsValue) : Parsed (list string) :=
  match v with
  | JsArray items =>
      match zStringItems path 0 items with
      | (values, []) => inl values
      | (_, issues) => inr issues
      end
  | _ => inr [invalid_type path "array" (typeName v)]
  end.

(** The issues of a field, none when it parsed. *)
Definition issuesOf {A : Type} (p : Parsed A) : list ZodIssue :=
  match p with
  | inl _ => []
  | inr issues => issues
  end.

Record ElementParams : Type := {
  element : string;
  ref : string
}.

(** [elementSchema.parse(params)]. *)
Definition elementSchema_parse (params : JsValue) : Outcome ElementParams :=
  match params with
  | JsObject fields =>
      let e := zString ["element"] (getField "element" fields) in
      let r := zString ["ref"] (getField "ref" fields) in
      match e, r with
      | inl e', inl r' => Returned {| element := e'; ref := r' |}
      | _, _ => Threw (InvalidArgumentsError (issuesOf e ++ issuesOf r)%list)
      end
  | _ => Threw (InvalidArgumentsError [invalid_type [] "object" (typeName params)])
  end.

Record DragParams : Type := {
  startElement : string;
  startRef : string;
  endElement : string;
  endRef : string
}.

(** [dragSchema.parse(params)]. *)
Definition dragSchema_parse (params : JsValue) : Outcome DragParams :=
  match params with
  | JsObject fields =>
      let se := zString ["startElement"] (getField "startElement" fields) in
      let sr := zString ["startRef"] (getField "startRef" fields) in
      let ee := zString ["endElement"] (getField "endElement" fields) in
      let er := zString ["endRef"] (getField "endRef" fields) in
      match se, sr, ee, er with
      | inl se', inl sr', inl ee', inl er' =>
          Returned {| startElement := se'; startRef := sr';
                      endElement := ee'; endRef := er' |}
      | _, _, _, _ =>
          Threw (InvalidArgumentsError (issuesOf se ++ issuesOf sr ++ issuesOf ee ++ issuesOf er)%list)
      end
  | _ => Threw (InvalidArgumentsError [invalid_type [] "object" (typeName params)])
  end.

Record TypeParams : Type := {
  type_element : string;
  type_ref : string;
  text : string;
  submit : option bool;
  slowly : option bool
}.

(** [typeSchema.parse(params)]. *)
Definition typeSchema_parse (params : JsValue) : Outcome TypeParams :=
  match params with
  | JsObject fields =>
      let e := zString ["element"] (getField "element" fields) in
      let r := zString ["ref"] (getField "ref" fields) in
      let t := zString ["text"] (getField "text" fields) in
      let su := zBooleanOptional ["submit"] (getField "submit" fields) in
      let sl := zBooleanOptional ["slowly"] (getField "slowly" fields) in
      match e, r, t, su, sl with
      | inl e', inl r', inl t', inl su', inl sl' =>
          Returned {| type_element := e'; type_ref := r'; text := t';
                      submit := su'; slowly := sl' |}
      | _, _, _, _, _ =>
          Threw (InvalidArgumentsError (issuesOf e ++ issuesOf r ++ issuesOf t ++ issuesOf su ++ issuesOf sl)%list)
      end
  | _ => Threw (InvalidArgumentsError [invalid_type [] "object" (typeName params)])
  end.

Record SelectOptionParams : Type := {
  option_element : string;
  option_ref : string;
  values : list string
}.

(** [selectOptionSchema.parse(params)]. *)
Definition selectOptionSchema_parse (params : JsValue) : Outcome SelectOptionParams :=
  match params with
  | JsObject fields =>
      let e := zString ["element"] (getField "element" fields) in
      let r := zString ["ref"] (getField "ref" fields) in
      let v := zStringArray ["values"] (getField "values" fields) in
      match e, r, v with
      | inl e', inl r', inl v' =>
          Returned {| option_element := e'; option_ref := r'; values := v' |}
      | _, _, _ =>
          Threw (InvalidArgumentsError (issuesOf e ++ issuesOf r ++ issuesOf v)%list)
      end
  | _ => Threw (InvalidArgumentsError [invalid_type [] "object" (typeName params)])
  end.

Record SelectRadioParams : Type := {
  radio_element : string;
  radio_ref : string;
  value : string
}.

(** [selectRadioSchema.parse(params)]. *)
Definition selectRadioSchema_parse (params : JsValue) : Outcome SelectRadioParams :=
  match params with
  | JsObject fields =>
      let e := zString ["element"] (getField "element" fields) in
      let r := zString ["ref"] (getField "ref" fields) in
      let v := zString ["value"] (getField "value" fields) in
      match e, r, v with
      | inl e', inl r', inl v' =>
          Returned {| radio_element := e'; radio_ref := r'; value := v' |}
      | _, _, _ =>
          Threw (InvalidArgumentsError (issuesOf e ++ issuesOf r ++ issuesOf v)%list)
      end
  | _ => Threw (InvalidArgumentsError [invalid_type [] "object" (typeName params)])
  end.

Record ScreenshotParams : Type := {
  raw : option bool;
  shot_element : option string;
  shot_ref : option string
}.

(** [!!x] for an optional string. *)
Definition provided (x : option string) : bool :=
  match x with
  | Some s => truthy s
  | None => false
  end.

(** [screenshotSchema.parse(params)]: the object schema, then the
    refinement [!!data.element === !!data.ref]. *)
Definition screenshotSchema_parse (params : JsValue) : Outcome ScreenshotParams :=
  match params with
  | JsObject fields =>
      let w := zBooleanOptional ["raw"] (getField "raw" fields) in
      let e := zStringOptional ["element"] (getField "element" fields) in
      let r := zStringOptional ["ref"] (getField "ref" fields) in
      match w, e, r with
      | inl w', inl e', inl r' =>
          if Bool.eqb (provided e') (provided r')
          then Returned {| raw := w'; shot_element := e'; shot_ref := r' |}
          else Threw (InvalidArgumentsError
                        [custom ["ref"; "element"]
                           "Both element and ref must be provided or neither."])
      | _, _, _ =>
          Threw (InvalidArgumentsError (issuesOf w ++ issuesOf e ++ issuesOf r)%list)
      end
  | _ => Threw (InvalidArgumentsError [invalid_type [] "object" (typeName params)])
  end.

(** ** Pages, snapshots, tabs and the session context

    [context.ts] (the classes [Context], [Tab] and [PageSnapshot]) is
    imported by both source files; what the code under study needs of it is
    written down here. *)

(** Modelled from the spec: a locatable target ([playwright.Locator]), a
    node of a snapshot with the reference it was given. *)
Record Locator : Type := {
  ariaRef : string;
  node : string
}.

Inductive FileType : Type := png | jpeg.

Definition fileTypeName (t : FileType) : string :=
  match t with
  | png => "png"
  | jpeg => "jpeg"
  end.

(** [playwright.PageScreenshotOptions] as [screenshot.handle] fills it. *)
Record ScreenshotOptions : Type := {
  options_type : FileType;
  quality : option N;
  scale : string;
  path : string
}.

(** The side-effecting calls on the browser driver that the deferred
    actions of [snapshot.ts] make. *)
Inductive DriverCall : Type :=
| Click (target : Locator)
| DragTo (source target : Locator)
| Hover (target : Locator)
| PressSequentially (target : Locator) (keys : string)
| Fill (target : Locator) (content : string)
| Press (target : Locator) (key : string)
| SelectOption (target : Locator) (chosen : list string)
| Check (target : Locator)
| Screenshot (target : option Locator) (options : ScreenshotOptions).

(** Modelled from the spec: the live page handle ([playwright.Page]), an
    object shared by every [Tab] built on it.  It holds the interactive
    nodes in document order, the generation of the last capture (0 before
    the first one), and the side-effecting calls issued to the driver so
    far, oldest first.  The generation is kept with the page, so that the
    captures of one page are numbered consecutively whichever [Tab] asks:
    the capture the resolver makes on a Tab of its own takes the
    generation from 3 to 4 in scenario 5 of the specification. *)
Record Page : Type := {
  pageGeneration : N;
  elements : list string;
  driverCalls : list DriverCall
}.

(** Modelled from the spec: a Snapshot, with its generation and its nodes
    in document order, each with its reference. *)
Record PageSnapshot : Type := {
  generation : N;
  nodes : list Locator
}.

(** Modelled from the spec: the reference [s<generation>e<index>]. *)
Definition mintRef (g i : N) : string := "s" ++ showN g ++ "e" ++ showN i.

(** Modelled from the spec: the nodes of a capture of generation [g],
    numbered from [i] on in document order. *)
Fixpoint mintNodes (g i : N) (descriptions : list string) : list Locator :=
  match descriptions with
  | [] => []
  | d :: rest => {| ariaRef := mintRef g i; node := d |} :: mintNodes g (i + 1) rest
  end.

(** Modelled from the spec: the serialized form of one node; the
    reference is embedded inline, as [ref=...] (the form [handleStaleRef]
    searches for). *)
Definition nodeLine (n : Locator) : string :=
  "- " ++ node n ++ " [ref=" ++ ariaRef n ++ "]".

(** Modelled from the spec: [PageSnapshot.text()], the serialized text of
    the snapshot. *)
Definition PageSnapshot_text (s : PageSnapshot) : string :=
  join newline (map nodeLine (nodes s)).

(** Modelled from the spec: Capture ([PageSnapshot.create]).  The new
    generation is the previous one plus 1 and the nodes are numbered by a
    counter within the capture, in document order. *)
Definition PageSnapshot_create (p : Page) : PageSnapshot * Page :=
  let g := (pageGeneration p + 1)%N in
  ({| generation := g; nodes := mintNodes g 1 (elements p) |},
   {| pageGeneration := g; elements := elements p; driverCalls := driverCalls p |}).

(** Modelled from the spec: [PageSnapshot.refLocator], the target bound to
    a reference; it fails when no node carries that exact reference.  The
    repair of stale references is not part of it: in the code that is
    [handleStaleRef], below, which a handler calls before it. *)
Definition refLocator (s : PageSnapshot) (r : string) : Outcome Locator :=
  match find (fun n => String.eqb (ariaRef n) r) (nodes s) with
  | Some l => Returned l
  | None => Threw (StaleOrUnknownReferenceError r)
  end.

(** Modelled from the spec: a Tab, the live page handle and the most
    recent Snapshot (absent before the first capture). *)
Record Tab : Type := {
  page : Page;
  currentSnapshot : option PageSnapshot
}.

(** Modelled from the spec: [new Tab(..., page, ...)], a new Tab object on
    an existing page; it has no Snapshot yet. *)
Definition Tab_new (p : Page) : Tab :=
  {| page := p; currentSnapshot := None |}.

(** Modelled from the spec: [Tab.captureSnapshot], which replaces the
    Tab's current Snapshot by a new capture of its page. *)
Definition Tab_captureSnapshot (t : Tab) : Tab :=
  let (s, p) := PageSnapshot_create (page t) in
  {| page := p; currentSnapshot := Some s |}.

(** Modelled from the spec: [Tab.snapshotOrDie], failing fast when there
    is no Snapshot yet. *)
Definition snapshotOrDie (t : Tab) : Outcome PageSnapshot :=
  match currentSnapshot t with
  | Some s => Returned s
  | None => Threw (PreconditionError "No snapshot available")
  end.

(** Modelled from the spec: a Modal State, its type tag and its
    human-readable description. *)
Record ModalState : Type := {
  type : string;
  description : string
}.

(** Modelled from the spec: the session context, owner of the active modal
    states and of the current Tab. *)
Record Context : Type := {
  modalStates : list ModalState;
  currentTab : option Tab
}.

Definition setCurrentTab (t : Tab) (c : Context) : Context :=
  {| modalStates := modalStates c; currentTab := Some t |}.

(** Modelled from the spec: [Context.currentTabOrDie]. *)
Definition currentTabOrDie : Async Context Tab :=
  fun c =>
    match currentTab c with
    | Some t => (Returned t, c)
    | None => (Threw (PreconditionError "No current tab"), c)
    end.

(** Modelled from the spec: [Context.ensureTab], which creates the Tab on
    a new page when a page is first needed. *)
Definition ensureTab : Async Context Tab :=
  fun c =>
    match currentTab c with
    | Some t => (Returned t, c)
    | None =>
        let t := Tab_new {| pageGeneration := 0; elements := []; driverCalls := [] |} in
        (Returned t, setCurrentTab t c)
    end.

(** A function of the page object called on the page of the current Tab:
    the Tab sees what it did to the page, and keeps its own Snapshot. *)
Definition onPage {A : Type} (f : Page -> Outcome A * Page) : Async Context A :=
  fun c =>
    match currentTab c with
    | Some t =>
        let (r, p) := f (page t) in
        (r, setCurrentTab {| page := p; currentSnapshot := currentSnapshot t |} c)
    | None => (Threw (PreconditionError "No current tab"), c)
    end.

(** ** The stale-reference resolver *)

(** [s${parseInt(ref.match(/s(\d+)e/)?.[1] || '0')}e], the reference's own
    generation prefix as the code recomputes it. *)
Definition ownPrefix (r : string) : string :=
  "s" ++ numberToString (parseInt (orElse (matchGeneration r) "0")) ++ "e".

(** [s${parseInt(ref.match(/s(\d+)e/)?.[1] || '0') + 1}e]. *)
Definition expectedPrefix (r : string) : string :=
  "s" ++ numberToString (plusOne (parseInt (orElse (matchGeneration r) "0"))) ++ "e".

(** [handleStaleRef(page, ref)]. *)
Definition handleStaleRef (p : Page) (r : string) : Outcome string * Page :=
  let tab := Tab_new p in
  let tab := Tab_captureSnapshot tab in
  match snapshotOrDie tab with
  | Threw e => (Threw e, page tab)
  | Returned snapshot =>
      if startsWith r (ownPrefix r)
      then
        let newRef := findRef (expectedPrefix r) (PageSnapshot_text snapshot) in
        (Returned (orElse newRef r), page tab)
      else (Returned r, page tab)
  end.

(** ** The tool contract *)

(** The deferred operation of a Pending Action: the closure a handler
    returns, as the driver calls it will make when it is run. *)
Inductive Action : Type :=
| RunCall (call : DriverCall)
| RunSteps (steps : list DriverCall)
| TakeScreenshot (target : option Locator) (options : ScreenshotOptions).

(** What a handler returns ([ToolResult] of [tools/tool.ts]). *)
Record PendingAction : Type := {
  code : list string;
  action : option Action;
  captureSnapshot : bool;
  waitForNetwork : bool
}.

(** [tool.schema]; the JSON form of the input schema is left out. *)
Record ToolSchema : Type := {
  name : string;
  toolDescription : string
}.

(** [Tool] of [tools/tool.ts]; [clearsModalState] is optional. *)
Record Tool : Type := {
  capability : string;
  schema : ToolSchema;
  clearsModalState : option string;
  handle : JsValue -> Async Context PendingAction
}.

(** What the code takes from the browser driver and from helper modules
    that are not part of the pipeline: the printed form of a locator
    ([generateLocator]), [javascript.quote] and [javascript.formatObject],
    the file the screenshot tool writes to, [String(error)], whether the driver throws on a
    call, how a call changes the interactive nodes of the page, and the
    bytes of a screenshot. *)
Class Externals : Type := {
  generateLocator : Locator -> string;
  quote : string -> string;
  formatValues : list string -> string;
  formatOptions : ScreenshotOptions -> string;
  screenshotFileStem : string;
  errorString : JsError -> string;
  driverThrows : DriverCall -> Page -> option string;
  driverEffect : DriverCall -> list string -> list string;
  screenshotBase64 : option Locator -> Page -> string
}.

Definition dquote : string := String (ascii_of_nat 34) EmptyString.

(** [!!b] for an optional boolean. *)
Definition flag (b : option bool) : bool :=
  match b with
  | Some true => true
  | _ => false
  end.

(** [array.push(item)]. *)
Definition push {A : Type} (array : list A) (item : A) : list A :=
  app array [item].

(** The tools of [tools/snapshot.ts]. *)
Module Tools.

Section Handlers.

Context {E : Externals}.

Local Open Scope async_scope.

Definition snapshot : Tool := {|
  capability := "core";
  schema := {| name := "browser_snapshot";
               toolDescription := "Capture accessibility snapshot of the current page, this is better than screenshot" |};
  clearsModalState := None;
  handle := fun _ =>
    _ <- ensureTab ;;
    ret {| code := ["// <internal code to capture accessibility snapshot>"];
           action := None;
           captureSnapshot := true;
           waitForNetwork := false |}
|}.

Definition click : Tool := {|
  capability := "core";
  schema := {| name := "browser_click";
               toolDescription := "Perform click on a web page" |};
  clearsModalState := None;
  handle := fun params =>
    validatedParams <- lift (elementSchema_parse params) ;;
    _ <- currentTabOrDie ;;
    r <- onPage (fun p => handleStaleRef p (ref validatedParams)) ;;
    (* [tab] is still the Tab object of the context: read it again now
       that its page has been through the resolver *)
    tab <- currentTabOrDie ;;
    snap <- lift (snapshotOrDie tab) ;;
    locator <- lift (refLocator snap r) ;;
    ret {| code := [ "// Click " ++ element validatedParams;
                     "await page." ++ generateLocator locator ++ ".click();" ];
           action := Some (RunCall (Click locator));
           captureSnapshot := true;
           waitForNetwork := true |}
|}.

Definition drag : Tool := {|
  capability := "core";
  schema := {| name := "browser_drag";
               toolDescription := "Perform drag and drop between two elements" |};
  clearsModalState := None;
  handle := fun params =>
    validatedParams <- lift (dragSchema_parse params) ;;
    tab <- currentTabOrDie ;;
    snap <- lift (snapshotOrDie tab) ;;
    startLocator <- lift (refLocator snap (startRef validatedParams)) ;;
    endLocator <- lift (refLocator snap (endRef validatedParams)) ;;
    ret {| code := [ "// Drag " ++ startElement validatedParams ++ " to "
                       ++ endElement validatedParams;
                     "await page." ++ generateLocator startLocator ++ ".dragTo(page."
                       ++ generateLocator endLocator ++ ");" ];
           action := Some (RunCall (DragTo startLocator endLocator));
           captureSnapshot := true;
           waitForNetwork := true |}
|}.

Definition hover : Tool := {|
  capability := "core";
  schema := {| name := "browser_hover";
               toolDescription := "Hover over element on page" |};
  clearsModalState := None;
  handle := fun params =>
    validatedParams <- lift (elementSchema_parse params) ;;
    tab <- currentTabOrDie ;;
    snap <- lift (snapshotOrDie tab) ;;
    locator <- lift (refLocator snap (ref validatedParams)) ;;
    ret {| code := [ "// Hover over " ++ element validatedParams;
                     "await page." ++ generateLocator locator ++ ".hover();" ];
           action := Some (RunCall (Hover locator));
           captureSnapshot := true;
           waitForNetwork := true |}
|}.

(** The two arrays [type.handle] fills as it goes: the trace and the
    steps of the deferred operation. *)
Definition typePlan (validatedParams : TypeParams) (locator : Locator)
  : list string * list DriverCall :=
  let code := [] in
  let steps := [] in
  let (code, steps) :=
    if flag (slowly validatedParams)
    then
      let code := push code ("// Press " ++ dquote ++ text validatedParams ++ dquote
                               ++ " sequentially into " ++ dquote
                               ++ type_element validatedParams ++ dquote) in
      let code := push code ("await page." ++ generateLocator locator
                               ++ ".pressSequentially("
                               ++ quote (text validatedParams) ++ ");") in
      (code, push steps (PressSequentially locator (text validatedParams)))
    else
      let code := push code ("// Fill " ++ dquote ++ text validatedParams ++ dquote
                               ++ " into " ++ dquote
                               ++ type_element validatedParams ++ dquote) in
      let code := push code ("await page." ++ generateLocator locator ++ ".fill("
                               ++ quote (text validatedParams) ++ ");") in
      (code, push steps (Fill locator (text validatedParams))) in
  if flag (submit validatedParams)
  then
    let code := push code "// Submit text" in
    let code := push code ("await page." ++ generateLocator locator
                             ++ ".press('Enter');") in
    (code, push steps (Press locator "Enter"))
  else (code, steps).

Definition type : Tool := {|
  capability := "core";
  schema := {| name := "browser_type";
               toolDescription := "Type text into editable element" |};
  clearsModalState := None;
  handle := fun params =>
    validatedParams <- lift (typeSchema_parse params) ;;
    tab <- currentTabOrDie ;;
    snap <- lift (snapshotOrDie tab) ;;
    locator <- lift (refLocator snap (type_ref validatedParams)) ;;
    let (code, steps) := typePlan validatedParams locator in
    ret {| code := code;
           action := Some (RunSteps steps);
           captureSnapshot := true;
           waitForNetwork := true |}
|}.

Definition selectOption : Tool := {|
  capability := "core";
  schema := {| name := "browser_select_option";
               toolDescription := "Select an option in a dropdown" |};
  clearsModalState := None;
  handle := fun params =>
    validatedParams <- lift (selectOptionSchema_parse params) ;;
    tab <- currentTabOrDie ;;
    snap <- lift (snapshotOrDie tab) ;;
    locator <- lift (refLocator snap (option_ref validatedParams)) ;;
    ret {| code := [ "// Select options [" ++ join ", " (values validatedParams)
                       ++ "] in " ++ option_element validatedParams;
                     "await page." ++ generateLocator locator ++ ".selectOption("
                       ++ formatValues (values validatedParams) ++ ");" ];
           action := Some (RunCall (SelectOption locator (values validatedParams)));
           captureSnapshot := true;
           waitForNetwork := true |}
|}.

Definition selectRadio : Tool := {|
  capability := "core";
  schema := {| name := "browser_select_radio";
               toolDescription := "Select a radio button" |};
  clearsModalState := None;
  handle := fun params =>
    validatedParams <- lift (selectRadioSchema_parse params) ;;
    tab <- currentTabOrDie ;;
    snap <- lift (snapshotOrDie tab) ;;
    locator <- lift (refLocator snap (radio_ref validatedParams)) ;;
    ret {| code := [ "// Select radio button " ++ dquote ++ radio_element validatedParams
                       ++ dquote ++ " with value " ++ dquote ++ value validatedParams
                       ++ dquote;
                     "await page." ++ generateLocator locator ++ ".check();" ];
           action := Some (RunCall (Check locator));
           captureSnapshot := true;
           waitForNetwork := true |}
|}.

(** [validatedParams.ref ? snapshot.refLocator(validatedParams.ref) : null]. *)
Definition screenshotLocator (snap : PageSnapshot) (r : option string)
  : Outcome (option Locator) :=
  match r with
  | Some s =>
      if truthy s
      then match refLocator snap s with
           | Returned l => Returned (Some l)
           | Threw e => Threw e
           end
      else Returned None
  | None => Returned None
  end.

Definition screenshot : Tool := {|
  capability := "core";
  schema := {| name := "browser_take_screenshot";
               toolDescription := "Take a screenshot of the current page. You can't perform actions based on the screenshot, use browser_snapshot for actions." |};
  clearsModalState := None;
  handle := fun params =>
    validatedParams <- lift (screenshotSchema_parse params) ;;
    tab <- currentTabOrDie ;;
    snap <- lift (snapshotOrDie tab) ;;
    let fileType := if flag (raw validatedParams) then png else jpeg in
    let fileName := screenshotFileStem ++ "." ++ fileTypeName fileType in
    let options := {| options_type := fileType;
                      quality := match fileType with png => None | jpeg => Some 50%N end;
                      scale := "css";
                      path := fileName |} in
    let isElementScreenshot :=
      provided (shot_element validatedParams) && provided (shot_ref validatedParams) in
    let code := [ "// Screenshot "
                    ++ (if isElementScreenshot
                        then orElse (shot_element validatedParams) ""
                        else "viewport")
                    ++ " and save it as " ++ fileName ] in
    locator <- lift (screenshotLocator snap (shot_ref validatedParams)) ;;
    let code :=
      match locator with
      | Some l => push code ("await page." ++ generateLocator l ++ ".screenshot("
                               ++ formatOptions options ++ ");")
      | None => push code ("await page.screenshot(" ++ formatOptions options ++ ");")
      end in
    ret {| code := code;
           action := Some (TakeScreenshot locator options);
           captureSnapshot := true;
           waitForNetwork := false |}
|}.

(** The default export of [tools/snapshot.ts]. *)
Definition all : list Tool :=
  [ snapshot; click; drag; hover; type; selectOption; selectRadio; screenshot ].

End Handlers.

End Tools.

(** ** Responses and the execution of a Pending Action *)

Inductive Content : Type :=
| TextContent (text : string)
| ImageContent (data mimeType : string).

Record Response : Type := {
  content : list Content;
  isError : bool
}.

Record CallToolRequest : Type := {
  params_name : string;
  params_arguments : JsValue
}.

Section Execution.

Context {E : Externals}.

Local Open Scope async_scope.

(** Modelled from the spec: one side-effecting call on the driver.  The
    call is recorded on the page; it throws when the driver does, and
    changes the page otherwise. *)
Definition issue (call : DriverCall) : Page -> Outcome unit * Page :=
  fun p =>
    match driverThrows call p with
    | Some message =>
        (Threw (ActionExecutionError message),
         {| pageGeneration := pageGeneration p;
            elements := elements p;
            driverCalls := push (driverCalls p) call |})
    | None =>
        (Returned tt,
         {| pageGeneration := pageGeneration p;
            elements := driverEffect call (elements p);
            driverCalls := push (driverCalls p) call |})
    end.

(** [steps.reduce((acc, step) => acc.then(step), Promise.resolve())]: the
    steps one after the other, up to the first that throws. *)
Fixpoint issueAll (steps : list DriverCall) : Page -> Outcome unit * Page :=
  fun p =>
    match steps with
    | [] => (Returned tt, p)
    | step :: rest =>
        match issue step p with
        | (Returned _, p') => issueAll rest p'
        | (Threw e, p') => (Threw e, p')
        end
    end.

(** Running the deferred operation: [action()].  Only the screenshot
    action produces a payload. *)
Definition runAction (a : Action) : Page -> Outcome (list Content) * Page :=
  fun p =>
    match a with
    | RunCall call =>
        match issue call p with
        | (Returned _, p') => (Returned [], p')
        | (Threw e, p') => (Threw e, p')
        end
    | RunSteps steps =>
        match issueAll steps p with
        | (Returned _, p') => (Returned [], p')
        | (Threw e, p') => (Threw e, p')
        end
    | TakeScreenshot target options =>
        match issue (Screenshot target options) p with
        | (Returned _, p') =>
            (Returned [ImageContent (screenshotBase64 target p)
                         (match options_type options with
                          | png => "image/png"
                          | jpeg => "image/jpeg"
                          end)], p')
        | (Threw e, p') => (Threw e, p')
        end
    end.

(** Modelled from the spec: the recapture of step 7, [captureSnapshot] on
    the current Tab; the text of the new Snapshot is returned. *)
Definition recapture : Async Context string :=
  fun c =>
    match currentTab c with
    | Some t =>
        let t' := Tab_captureSnapshot t in
        match snapshotOrDie t' with
        | Returned s => (Returned (PageSnapshot_text s), setCurrentTab t' c)
        | Threw e => (Threw e, setCurrentTab t' c)
        end
    | None => (Threw (PreconditionError "No current tab"), c)
    end.

(** Modelled from the spec: [Context.run], steps 4 to 8 of the dispatcher
    algorithm: plan, run the deferred operation, wait for the network when
    asked (a bounded wait, which changes nothing here), recapture when
    asked, and assemble the response from the trace, the payload and the
    text of the new Snapshot. *)
Definition Context_run (tool : Tool) (arguments : JsValue) : Async Context Response :=
  pending <- handle tool arguments ;;
  payload <- match action pending with
             | Some a => onPage (runAction a)
             | None => ret []
             end ;;
  texts <- (if captureSnapshot pending
            then (t <- recapture ;; ret [join newline (code pending); t])
            else ret [join newline (code pending)]) ;;
  ret {| content := app (map TextContent texts) payload; isError := false |}.

End Execution.

(** ** The dispatcher ([server.ts]) *)

(** [createErrorResponse(text)]. *)
Definition createErrorResponse (text : string) : Response :=
  {| content := [TextContent text]; isError := true |}.

(** [modalStates.includes(x)], with [x] possibly [undefined]. *)
Definition includes (l : list string) (x : option string) : bool :=
  match x with
  | Some s => existsb (String.eqb s) l
  | None => false
  end.

(** Modelled from the spec: one active modal state in caller-displayable
    form, its type and its description. *)
Definition modalStateLine (s : ModalState) : string :=
  "- " ++ type s ++ ": " ++ description s.

(** Modelled from the spec: [Context.modalStatesMarkdown], which
    enumerates the active modal states, one line each. *)
Definition modalStatesMarkdown (c : Context) : list string :=
  map modalStateLine (modalStates c).

(** The condition under which [handleToolExecution] turns a call down. *)
Definition gateRejects (tool : Tool) (context : Context) : bool :=
  let modalStates := map type (modalStates context) in
  (provided (clearsModalState tool) && negb (includes modalStates (clearsModalState tool)))
  || (negb (provided (clearsModalState tool)) && negb (Nat.eqb (List.length modalStates) 0)).

Section Server.

Context {E : Externals}.

(** [context.run], a method of the [Context] class. *)
Variable run : Tool -> JsValue -> Async Context Response.

(** [handleToolExecution(tool, context, request)]. *)
Definition handleToolExecution (tool : Tool) (request : CallToolRequest)
  : Async Context Response :=
  fun context =>
    if gateRejects tool context
    then
      let text :=
        join newline
          (("Tool " ++ dquote ++ params_name request ++ dquote
              ++ " does not handle the modal state.")
             :: modalStatesMarkdown context) in
      (Returned (createErrorResponse text), context)
    else
      match run tool (params_arguments request) context with
      | (Returned response, context') => (Returned response, context')
      | (Threw error, context') =>
          (Returned (createErrorResponse (errorString error)), context')
      end.

(** The [CallToolRequestSchema] handler of [setupRequestHandlers]. *)
Definition callTool (tools : list Tool) (request : CallToolRequest)
  : Async Context Response :=
  match find (fun tool => String.eqb (name (schema tool)) (params_name request)) tools with
  | None =>
      ret (createErrorResponse
             ("Tool " ++ dquote ++ params_name request ++ dquote ++ " not found"))
  | Some tool => handleToolExecution tool request
  end.

End Server.

(** ** Notions used in the statements, and the sessions of the examples *)

(** [s] holds decimal digits only. *)
Fixpoint allDigits (s : string) : bool :=
  match s with
  | String c r => isDigit c && allDigits r
  | EmptyString => true
  end.

(** The head of [s], if any, is not a digit. *)
Definition headNotDigit (s : string) : Prop :=
  match s with
  | String c _ => isDigit c = false
  | EmptyString => True
  end.

(** [needle] occurs in [text]. *)
Definition occursIn (needle text : string) : Prop :=
  exists pre post, text = pre ++ needle ++ post.

(** A match of [ref=(prefix\d+)] that starts at offset [pos] of [text] and
    captures [r]: the digits are all the digits there (the group is
    greedy). *)
Definition refMatchAt (prefix text : string) (pos : nat) (r : string) : Prop :=
  exists pre ds post,
    text = pre ++ ("ref=" ++ prefix) ++ ds ++ post /\
    String.length pre = pos /\
    ds <> "" /\ allDigits ds = true /\ headNotDigit post /\
    r = prefix ++ ds.

(** The generation the resolver reads in a reference. *)
Definition refGeneration (r : string) : JsNumber :=
  parseInt (orElse (matchGeneration r) "0").

(** The generation read in [r] and its successor are integers a
    JavaScript number holds exactly. *)
Definition safeGeneration (r : string) : Prop :=
  match refGeneration r with
  | Int g => (g <= MAX_SAFE_INTEGER)%N
  | NaN => False
  end.


(** The side-effecting driver calls issued so far on the page of the
    current Tab. *)
Definition issuedCalls (c : Context) : list DriverCall :=
  match currentTab c with
  | Some t => driverCalls (page t)
  | None => []
  end.

(** The arguments of a tool that takes an element and its reference. *)
Definition elementArguments (e r : string) : JsValue :=
  JsObject [("element", JsString e); ("ref", JsString r)].

(** A driver that never throws and pages that never change, for the
    examples. *)
Definition exampleWorld : Externals := {|
  generateLocator := fun l => "locator('aria-ref=" ++ ariaRef l ++ "')";
  quote := fun s => "'" ++ s ++ "'";
  formatValues := fun vs => "[" ++ join ", " vs ++ "]";
  formatOptions := fun o => "{ path: '" ++ path o ++ "' }";
  screenshotFileStem := "/tmp/page";
  errorString := fun e =>
    match e with
    | InvalidArgumentsError _ => "ZodError: invalid arguments"
    | PreconditionError m => "Error: " ++ m
    | StaleOrUnknownReferenceError r => "Error: no element for " ++ r
    | ActionExecutionError m => "Error: " ++ m
    end;
  driverThrows := fun _ _ => None;
  driverEffect := fun _ els => els;
  screenshotBase64 := fun _ _ => "aW1hZ2U="
|}.

(** A page captured three times, the Tab that holds its third Snapshot,
    and a session on that Tab with no modal state. *)
Definition examplePage : Page :=
  {| pageGeneration := 3; elements := ["button OK"; "link Home"]; driverCalls := [] |}.

Definition exampleSnapshot : PageSnapshot :=
  {| generation := 3; nodes := mintNodes 3 1 (elements examplePage) |}.

Definition exampleTab : Tab :=
  {| page := examplePage; currentSnapshot := Some exampleSnapshot |}.

Definition exampleContext : Context :=
  {| modalStates := []; currentTab := Some exampleTab |}.

(** The same session while a dialog is open. *)
Definition dialogContext : Context :=
  {| modalStates := [{| type := "dialog"; description := "alert dialog: Leave site?" |}];
     currentTab := Some exampleTab |}.

(** [m] relates every store it starts from to the store it ends in by
    [R], whether it returns or throws. *)
Definition keeps {A : Type} (R : Context -> Context -> Prop) (m : Async Context A) : Prop :=
  forall c, R c (snd (m c)).

(** The store is left as it was. *)
Definition untouched (c c' : Context) : Prop := c' = c.

(** No side-effecting call was issued to the driver. *)
Definition sameCalls (c c' : Context) : Prop := issuedCalls c' = issuedCalls c.

(** Whatever [m] returns satisfies [P]. *)
Definition yields {A : Type} (P : A -> Prop) (m : Async Context A) : Prop :=
  forall c a c', m c = (Returned a, c') -> P a.

(** The driver calls a deferred operation starts with. *)
Definition firstCall (a : Action) : option DriverCall :=
  match a with
  | RunCall call => Some call
  | RunSteps steps => hd_error steps
  | TakeScreenshot target options => Some (Screenshot target options)
  end.

(** A Pending Action with a trace, and whose deferred operation, if any,
    has a driver call to make. *)
Definition planned (pending : PendingAction) : Prop :=
  code pending <> [] /\
  forall a, action pending = Some a -> firstCall a <> None.

(** The driver calls a deferred operation makes when it runs through. *)
Definition callsOf (a : Action) : list DriverCall :=
  match a with
  | RunCall call => [call]
  | RunSteps steps => steps
  | TakeScreenshot target options => [Screenshot target options]
  end.

(** The line of code a trace gives for a driver call. *)
Definition statementOf {E : Externals} (call : DriverCall) : string :=
  match call with
  | Click l => "await page." ++ generateLocator l ++ ".click();"
  | DragTo s e =>
      "await page." ++ generateLocator s ++ ".dragTo(page." ++ generateLocator e ++ ");"
  | Hover l => "await page." ++ generateLocator l ++ ".hover();"
  | PressSequentially l keys =>
      "await page." ++ generateLocator l ++ ".pressSequentially(" ++ quote keys ++ ");"
  | Fill l content =>
      "await page." ++ generateLocator l ++ ".fill(" ++ quote content ++ ");"
  | Press l key => "await page." ++ generateLocator l ++ ".press('" ++ key ++ "');"
  | SelectOption l chosen =>
      "await page." ++ generateLocator l ++ ".selectOption(" ++ formatValues chosen ++ ");"
  | Check l => "await page." ++ generateLocator l ++ ".check();"
  | Screenshot (Some l) options =>
      "await page." ++ generateLocator l ++ ".screenshot(" ++ formatOptions options ++ ");"
  | Screenshot None options => "await page.screenshot(" ++ formatOptions options ++ ");"
  end.

(** A trace that gives each driver call, in order, a comment and then its
    line of code. *)
Fixpoint traceOf {E : Externals} (comments : list string) (calls : list DriverCall)
  : list string :=
  match comments, calls with
  | comment :: comments', call :: calls' =>
      comment :: statementOf call :: traceOf comments' calls'
  | _, _ => []
  end.

(** A comment line. *)
Definition isComment (line : string) : Prop := startsWith line "// " = true.

(** What a handler of [snapshot.ts] returns: the one line of
    [browser_snapshot] and no deferred operation, or a deferred operation
    with a trace that spells out each of its driver calls. *)
Definition tracedPlan {E : Externals} (pending : PendingAction) : Prop :=
  match action pending with
  | None => code pending = ["// <internal code to capture accessibility snapshot>"]
  | Some a =>
      callsOf a <> [] /\
      exists comments,
        List.length comments = List.length (callsOf a) /\
        Forall isComment comments /\
        code pending = traceOf comments (callsOf a)
  end.

(** The text of the gate's rejection. *)
Definition rejectionText (request : CallToolRequest) (c : Context) : string :=
  join newline
    (("Tool " ++ dquote ++ params_name request ++ dquote
        ++ " does not handle the modal state.")
       :: modalStatesMarkdown c).

(** The tool the dispatcher finds for a request. *)
Definition lookup (tools : list Tool) (request : CallToolRequest) : option Tool :=
  find (fun tool => String.eqb (name (schema tool)) (params_name request)) tools.

(** What a synchronous call throws, if it throws. *)
Definition thrown {A : Type} (o : Outcome A) : option JsError :=
  match o with
  | Returned _ => None
  | Threw e => Some e
  end.

(** The tools of [snapshot.ts] whose handler parses its arguments, each
    with the validation its handler starts with. *)
Definition validations {E : Externals} : list (Tool * (JsValue -> option JsError)) :=
  [ (Tools.click, fun v => thrown (elementSchema_parse v));
    (Tools.drag, fun v => thrown (dragSchema_parse v));
    (Tools.hover, fun v => thrown (elementSchema_parse v));
    (Tools.type, fun v => thrown (typeSchema_parse v));
    (Tools.selectOption, fun v => thrown (selectOptionSchema_parse v));
    (Tools.selectRadio, fun v => thrown (selectRadioSchema_parse v));
    (Tools.screenshot, fun v => thrown (screenshotSchema_parse v)) ].

(** A tool that declares [clearsModalState = 'dialog'], for the examples. *)
Definition dialogTool : Tool := {|
  capability := "core";
  schema := {| name := "browser_handle_dialog"; toolDescription := "Handle a dialog" |};
  clearsModalState := Some "dialog";
  handle := fun _ =>
    ret {| code := ["// <internal code to handle the dialog>"];
           action := None;
           captureSnapshot := false;
           waitForNetwork := false |}
|}.





(** The page of the examples after one more capture. *)
Definition recapturedPage : Page :=
  {| pageGeneration := 4; elements := ["button OK"; "link Home"]; driverCalls := [] |}.

(** A call of [browser_click] without its arguments. *)
Definition clickWithoutArguments : CallToolRequest :=
  {| params_name := "browser_click"; params_arguments := JsObject [] |}.

(** A [context.run] that plans nothing, for the examples on the gate. *)
Definition idleRun : Tool -> JsValue -> Async Context Response :=
  fun _ _ => ret {| content := []; isError := false |}.

(** A call of a tool the server does not have. *)
Definition teleport : CallToolRequest :=
  {| params_name := "browser_teleport"; params_arguments := JsObject [] |}.

(** A call of [browser_hover] on the link. *)
Definition hoverLink : CallToolRequest :=
  {| params_name := "browser_hover";
     params_arguments := elementArguments "Home link" "s3e2" |}.

(** A call of the dialog tool. *)
Definition acceptDialog : CallToolRequest :=
  {| params_name := "browser_handle_dialog"; params_arguments := JsObject [] |}.

(** ** The rest of [server.ts] *)

(** [process.env]: the value of a variable, if it is set. *)
Definition Env : Type := string -> option string.

(** What [validateEnvironmentVars] returns. *)
Record EnvVars : Type := {
  emailaddress : string;
  password : string
}.

(** [validateEnvironmentVars()], on the environment of the process.  The
    [Error] it throws is a precondition failure among the error kinds. *)
Definition validateEnvironmentVars (env : Env) : Outcome EnvVars :=
  if negb (provided (env "EMAILADDRESS")) || negb (provided (env "PASSWORD"))
  then Threw (PreconditionError
                "Required environment variables EMAILADDRESS and PASSWORD must be set")
  else Returned {| emailaddress := orElse (env "EMAILADDRESS") "";
                   password := orElse (env "PASSWORD") "" |}.

(** [object[key] = value] on the fields of a JavaScript object: an
    existing key keeps its place. *)
Fixpoint setField (key : string) (v : JsValue) (fields : list (string * JsValue))
  : list (string * JsValue) :=
  match fields with
  | [] => [(key, v)]
  | (k, v') :: rest =>
      if String.eqb k key then (key, v) :: rest else (k, v') :: setField key v rest
  end.

(** [{...a, ...b}]: the fields of [a], then those of [b] over them. *)
Definition spread (a b : list (string * JsValue)) : list (string * JsValue) :=
  fold_left (fun fields kv => setField (fst kv) (snd kv) fields) b a.

(** [resource.schema]; only the [uri] is read by the server. *)
Record ResourceSchema : Type := {
  uri : string;
  resourceName : string
}.

(** [Resource] of [resources/resource.ts], as the server uses it:
    [resource.read(context, uri)] gives the contents, as JSON values. *)
Record Resource : Type := {
  resourceSchema : ResourceSchema;
  read : string -> Async Context (list JsValue)
}.

(** The [options] of [createServerWithTools]: the four fields it names and
    the other fields of the object (the [ContextOptions]). *)
Record Options : Type := {
  options_name : string;
  options_version : string;
  options_tools : list Tool;
  options_resources : list Resource;
  contextOptions : list (string * JsValue)
}.

(** What [createServerWithTools] sets up: the [Server] with its name and
    version, the tools and resources its request handlers serve, and the
    fields the [Context] was constructed with besides the four named
    ones. *)
Record Server : Type := {
  serverName : string;
  serverVersion : string;
  serverTools : list Tool;
  serverResources : list Resource;
  contextFields : list (string * JsValue)
}.

(** [createServerWithTools(options)], up to the installation of the
    handlers: the environment is validated first, and the [Context] gets
    [{...options, ...envVars}]. *)
Definition createServerWithTools (env : Env) (options : Options) : Outcome Server :=
  match validateEnvironmentVars env with
  | Threw e => Threw e
  | Returned envVars =>
      Returned {| serverName := options_name options;
                  serverVersion := options_version options;
                  serverTools := options_tools options;
                  serverResources := options_resources options;
                  contextFields :=
                    spread (contextOptions options)
                      [ ("emailaddress", JsString (emailaddress envVars));
                        ("password", JsString (password envVars)) ] |}
  end.

(** The [ListToolsRequestSchema] handler: [tools.map(tool => tool.schema)]. *)
Definition listTools (tools : list Tool) : list ToolSchema := map schema tools.

(** The [ListResourcesRequestSchema] handler. *)
Definition listResources (resources : list Resource) : list ResourceSchema :=
  map resourceSchema resources.

(** The [ReadResourceRequestSchema] handler; the list is the [contents] of
    its result.  Nothing is caught here: what [resource.read] throws, the
    handler throws. *)
Definition readResource (resources : list Resource) (requested : string)
  : Async Context (list JsValue) :=
  match find (fun resource => String.eqb (uri (resourceSchema resource)) requested)
          resources with
  | Some resource => read resource requested
  | None => ret []
  end.

(** A [Server] object, by its identity. *)
Definition ServerHandle : Type := nat.

(** What the [ServerList] acts on besides its own list: the servers
    [close()] was called on so far, oldest first. *)
Definition Closed : Type := list ServerHandle.

(** [servers.indexOf(server)]: [-1] when it is not there. *)
Fixpoint indexOf (server : ServerHandle) (servers : list ServerHandle) : Z :=
  match servers with
  | [] => (-1)%Z
  | s :: rest =>
      if Nat.eqb s server then 0%Z
      else match indexOf server rest with
           | Zneg _ => (-1)%Z
           | i => (i + 1)%Z
           end
  end.

(** [servers.splice(index, 1)] for an index that is not negative. *)
Definition splice1 (index : Z) (servers : list ServerHandle) : list ServerHandle :=
  app (firstn (Z.to_nat index) servers) (skipn (S (Z.to_nat index)) servers).

Section ServerList.

(** [server.close()]: whether it throws. *)
Variable closeThrows : ServerHandle -> option JsError.

(** The [serverFactory] the list was constructed with. *)
Variable serverFactory : Async Closed ServerHandle.

(** [await server.close()]. *)
Definition closeServer (server : ServerHandle) : Async Closed unit :=
  fun closed =>
    match closeThrows server with
    | Some e => (Threw e, push closed server)
    | None => (Returned tt, push closed server)
    end.

(** [ServerList.create()], on the list [_servers] and the servers closed
    so far. *)
Definition ServerList_create : Async (list ServerHandle * Closed) ServerHandle :=
  fun st =>
    match serverFactory (snd st) with
    | (Returned server, closed) => (Returned server, (push (fst st) server, closed))
    | (Threw e, closed) => (Threw e, (fst st, closed))
    end.

(** [ServerList.close(server)]. *)
Definition ServerList_close (server : ServerHandle)
  : Async (list ServerHandle * Closed) unit :=
  fun st =>
    let index := indexOf server (fst st) in
    let servers := if Z.eqb index (-1) then fst st else splice1 index (fst st) in
    let (r, closed) := closeServer server (snd st) in
    (r, (servers, closed)).

(** [servers.map(server => server.close())]: [close()] is called on every
    server, in the order of the list, whether or not an earlier one
    throws. *)
Fixpoint closeEach (servers : list ServerHandle) (closed : Closed)
  : list (Outcome unit) * Closed :=
  match servers with
  | [] => ([], closed)
  | s :: rest =>
      let (r, closed') := closeServer s closed in
      let (rs, closed'') := closeEach rest closed' in
      (r :: rs, closed'')
  end.

(** [Promise.all(promises)], for promises of nothing: it rejects when one
    of them does.  The rejection it passes on is the first to happen; the
    first in the list stands for it here. *)
Fixpoint promiseAll (outcomes : list (Outcome unit)) : Outcome unit :=
  match outcomes with
  | [] => Returned tt
  | Threw e :: _ => Threw e
  | Returned _ :: rest => promiseAll rest
  end.

(** [ServerList.closeAll()]. *)
Definition ServerList_closeAll : Async (list ServerHandle * Closed) unit :=
  fun st =>
    let (outcomes, closed) := closeEach (fst st) (snd st) in
    (promiseAll outcomes, (fst st, closed)).

End ServerList.

(** The post-conditions a tool of the given name asks for. *)
Definition flagsOf (toolName : string) (pending : PendingAction) : Prop :=
  captureSnapshot pending = true /\
  (waitForNetwork pending = false <->
   toolName = "browser_snapshot" \/ toolName = "browser_take_screenshot") /\
  (action pending = None <-> toolName = "browser_snapshot").

(** A factory that makes the server 7, and servers that close without
    throwing, for the examples. *)
Definition exampleFactory : Async Closed ServerHandle :=
  fun closed => (Returned 7%nat, closed).

Definition quietClose : ServerHandle -> option JsError := fun _ => None.

(** Arguments for [browser_take_screenshot] of the viewport, as PNG. *)
Definition rawViewport : JsValue := JsObject [("raw", JsBoolean true)].

(** Arguments for [browser_type]: a text for the link, then Enter. *)
Definition typeAndSubmit : JsValue :=
  JsObject [ ("element", JsString "Home link"); ("ref", JsString "s3e2");
             ("text", JsString "hello"); ("submit", JsBoolean true) ].

(** * Properties *)

(** ** Facts about strings *)

Lemma append_assoc (a b c : string) : (a ++ b) ++ c = a ++ b ++ c.
Proof. induction a as [|x a IH]; simpl; [reflexivity | now rewrite IH]. Qed.

Lemma append_empty_r (a : string) : a ++ "" = a.
Proof. induction a as [|x a IH]; simpl; [reflexivity | now rewrite IH]. Qed.

Lemma dropPrefix_append (p r : string) : dropPrefix p (p ++ r) = Some r.
Proof.
  induction p as [|a p IH]; simpl; [reflexivity|].
  now rewrite Ascii.eqb_refl.
Qed.

Lemma dropPrefix_inv (p s r : string) : dropPrefix p s = Some r -> s = p ++ r.
Proof.
  revert s; induction p as [|a p IH]; simpl; intros s H.
  - now inversion H.
  - destruct s as [|b s]; [discriminate|].
    destruct (Ascii.eqb_spec a b) as [->|]; [|discriminate].
    now rewrite (IH _ H).
Qed.


Lemma spanDigits_append (ds rest : string) :
  allDigits ds = true -> headNotDigit rest -> spanDigits (ds ++ rest) = (ds, rest).
Proof.
  intros Hd Hr; induction ds as [|c ds IH]; simpl in *.
  - destruct rest as [|c r]; simpl in *; [reflexivity | now rewrite Hr].
  - apply andb_prop in Hd as [Hc Hd].
    now rewrite Hc, (IH Hd).
Qed.

Lemma spanDigits_inv (s ds rest : string) :
  spanDigits s = (ds, rest) ->
  s = ds ++ rest /\ allDigits ds = true /\ headNotDigit rest.
Proof.
  revert ds rest; induction s as [|c s IH]; simpl; intros ds rest H.
  - inversion H; subst; simpl; auto.
  - destruct (isDigit c) eqn:Hc.
    + destruct (spanDigits s) as [d t] eqn:Hs.
      inversion H; subst; clear H.
      destruct (IH _ _ eq_refl) as (-> & Hd & Ht).
      simpl; rewrite Hc, Hd; auto.
    + inversion H; subst; simpl; auto.
Qed.

Lemma string_of_uint_digits (d : Decimal.uint) :
  allDigits (NilEmpty.string_of_uint d) = true.
Proof. induction d; simpl; auto. Qed.

Lemma showN_digits (n : N) : allDigits (showN n) = true.
Proof. apply string_of_uint_digits. Qed.










Lemma digits_split_unique (d1 d2 t1 t2 : string) :
  allDigits d1 = true -> allDigits d2 = true ->
  headNotDigit t1 -> headNotDigit t2 ->
  d1 ++ t1 = d2 ++ t2 -> d1 = d2 /\ t1 = t2.
Proof.
  intros H1 H2 T1 T2 E.
  pose proof (spanDigits_append d1 t1 H1 T1) as S1.
  pose proof (spanDigits_append d2 t2 H2 T2) as S2.
  rewrite E in S1; rewrite S1 in S2; inversion S2; auto.
Qed.

Lemma matchRefHere_spec (prefix s r : string) :
  matchRefHere prefix s = Some r <-> refMatchAt prefix s 0 r.
Proof.
  unfold matchRefHere, refMatchAt; split.
  - destruct (dropPrefix ("ref=" ++ prefix) s) as [rest|] eqn:Hp; [|discriminate].
    apply dropPrefix_inv in Hp.
    destruct (spanDigits rest) as [ds post] eqn:Hs; simpl.
    apply spanDigits_inv in Hs as (-> & Hd & Ht).
    destruct ds as [|d ds]; [discriminate|]; intros H; inversion H; subst.
    exists "", (String d ds), post; repeat split; auto; discriminate.
  - intros (pre & ds & post & -> & Hl & Hne & Hd & Ht & ->).
    destruct pre; [|discriminate]; cbn [append].
    change (String "r" (String "e" (String "f" (String "=" (prefix ++ ds ++ post)))))
      with ("ref=" ++ prefix ++ ds ++ post).
    change (String "r" (String "e" (String "f" (String "=" prefix))))
      with ("ref=" ++ prefix).
    rewrite <- (append_assoc "ref=" prefix), dropPrefix_append.
    rewrite (spanDigits_append _ _ Hd Ht); simpl.
    destruct ds; [congruence | reflexivity].
Qed.

Lemma refMatchAt_tail (prefix : string) (c : ascii) (s : string) (pos : nat) (r : string) :
  refMatchAt prefix (String c s) (S pos) r <-> refMatchAt prefix s pos r.
Proof.
  unfold refMatchAt; split.
  - intros (pre & ds & post & E & Hl & H).
    destruct pre as [|c' pre]; [discriminate|].
    simpl in E, Hl; inversion E; subst.
    exists pre, ds, post; intuition.
  - intros (pre & ds & post & -> & Hl & H).
    exists (String c pre), ds, post; simpl; intuition.
Qed.

Lemma refMatchAt_functional (prefix s : string) (pos : nat) (r r' : string) :
  refMatchAt prefix s pos r -> refMatchAt prefix s pos r' -> r = r'.
Proof.
  revert s; induction pos as [|pos IH]; intros s H H'.
  - apply matchRefHere_spec in H, H'; congruence.
  - destruct s as [|c s].
    + destruct H as (pre & ? & ? & E & Hl & _); destruct pre; discriminate.
    + apply refMatchAt_tail in H, H'; eauto.
Qed.

(** The search returns the capture of the leftmost match. *)
Lemma findRef_Some (prefix s r : string) :
  findRef prefix s = Some r <->
  exists pos, refMatchAt prefix s pos r /\
              forall pos' r', (pos' < pos)%nat -> ~ refMatchAt prefix s pos' r'.
Proof.
  revert r; induction s as [|c s IH]; intros r.
  - split; [discriminate|].
    intros (pos & (pre & ds & post & E & _) & _); destruct pre; discriminate.
  - cbn [findRef]. destruct (matchRefHere prefix (String c s)) as [r0|] eqn:Hm.
    + split.
      * intros H; inversion H; subst. exists 0%nat; split; [now apply matchRefHere_spec | lia].
      * intros (pos & H & Hmin). destruct pos.
        -- apply matchRefHere_spec in H; congruence.
        -- exfalso; apply (Hmin 0%nat r0); [lia | now apply matchRefHere_spec].
    + rewrite IH; split.
      * intros (pos & H & Hmin). exists (S pos); split; [now apply refMatchAt_tail|].
        intros pos' r' Hlt H'. destruct pos'.
        -- apply matchRefHere_spec in H'; congruence.
        -- apply refMatchAt_tail in H'. apply (Hmin pos' r'); [lia | assumption].
      * intros (pos & H & Hmin). destruct pos.
        -- apply matchRefHere_spec in H; congruence.
        -- exists pos; split; [now apply refMatchAt_tail in H|].
           intros pos' r' Hlt H'. apply (Hmin (S pos') r'); [lia | now apply refMatchAt_tail].
Qed.

Lemma findRef_None (prefix s : string) :
  findRef prefix s = None <-> forall pos r, ~ refMatchAt prefix s pos r.
Proof.
  split.
  - intros Hn pos. induction pos as [pos IHpos] using lt_wf_ind. intros r H.
    assert (Hs : findRef prefix s = Some r).
    { apply findRef_Some. exists pos; split; [assumption|].
      intros pos' r' Hlt; now apply IHpos. }
    congruence.
  - intros H. destruct (findRef prefix s) as [r|] eqn:Hf; [|reflexivity].
    apply findRef_Some in Hf as (pos & Hm & _). now apply H in Hm.
Qed.

Lemma matchGenerationHere_inv (s d : string) :
  matchGenerationHere s = Some d ->
  exists post, s = "s" ++ d ++ "e" ++ post /\ d <> "" /\ allDigits d = true.
Proof.
  unfold matchGenerationHere.
  destruct s as [|c r]; [discriminate|].
  destruct (Ascii.eqb_spec c "s") as [->|]; [|discriminate].
  destruct (spanDigits r) as [ds t] eqn:Hs.
  apply spanDigits_inv in Hs as (-> & Hd & _).
  destruct ds as [|x ds]; [discriminate|].
  destruct t as [|c' t]; [discriminate|].
  destruct (Ascii.eqb_spec c' "e") as [->|]; [|discriminate].
  intros H; inversion H; subst.
  exists t; repeat split; auto; discriminate.
Qed.

Lemma matchGeneration_inv (s d : string) :
  matchGeneration s = Some d ->
  exists pre post, s = pre ++ "s" ++ d ++ "e" ++ post /\ d <> "" /\ allDigits d = true.
Proof.
  induction s as [|c s IH]; cbn [matchGeneration].
  - destruct (matchGenerationHere "") eqn:H; [|discriminate].
    intros E; inversion E; subst.
    apply matchGenerationHere_inv in H as (post & H & ?); exists "", post; auto.
  - destruct (matchGenerationHere (String c s)) eqn:H.
    + intros E; inversion E; subst.
      apply matchGenerationHere_inv in H as (post & H & ?); exists "", post; auto.
    + intros E. destruct (IH E) as (pre & post & -> & ?).
      exists (String c pre), post; auto.
Qed.



Lemma handleStaleRef_page (p : Page) (r : string) :
  snd (handleStaleRef p r) = snd (PageSnapshot_create p).
Proof.
  unfold handleStaleRef, Tab_captureSnapshot, Tab_new, snapshotOrDie; simpl.
  now destruct (startsWith r (ownPrefix r)).
Qed.

Lemma handleStaleRef_result (p : Page) (r : string) :
  fst (handleStaleRef p r) =
  Returned (if startsWith r (ownPrefix r)
            then orElse (findRef (expectedPrefix r)
                           (PageSnapshot_text (fst (PageSnapshot_create p)))) r
            else r).
Proof.
  unfold handleStaleRef, Tab_captureSnapshot, Tab_new, snapshotOrDie; simpl.
  now destruct (startsWith r (ownPrefix r)).
Qed.

Lemma refMatchAt_truthy (prefix text : string) (pos : nat) (r : string) :
  refMatchAt prefix text pos r -> truthy r = true.
Proof.
  intros (pre & ds & post & _ & _ & Hne & _ & _ & ->).
  destruct prefix; simpl; [|reflexivity].
  destruct ds; [congruence | reflexivity].
Qed.

Lemma orElse_findRef (prefix text r : string) :
  orElse (findRef prefix text) r =
  match findRef prefix text with Some r' => r' | None => r end.
Proof.
  destruct (findRef prefix text) as [r'|] eqn:H; [|reflexivity].
  apply findRef_Some in H as (pos & H & _).
  unfold orElse; now rewrite (refMatchAt_truthy _ _ _ _ H).
Qed.

(** ** The resolver in [click.handle] *)

Lemma refLocator_unknown (s : PageSnapshot) (r : string) :
  (forall n, In n (nodes s) -> ariaRef n <> r) ->
  refLocator s r = Threw (StaleOrUnknownReferenceError r).
Proof.
  intros H; unfold refLocator.
  destruct (find _ (nodes s)) as [l|] eqn:Hf; [|reflexivity].
  apply find_some in Hf as [Hin Heq].
  apply String.eqb_eq in Heq. now apply H in Hin.
Qed.

Lemma refLocator_found (s : PageSnapshot) (r : string) (l : Locator) :
  refLocator s r = Returned l -> In l (nodes s) /\ ariaRef l = r.
Proof.
  unfold refLocator.
  destruct (find _ (nodes s)) as [l'|] eqn:Hf; [|discriminate].
  intros H; inversion H; subst.
  apply find_some in Hf as [Hin Heq]. now apply String.eqb_eq in Heq.
Qed.

Section ClickResolution.

Context {E : Externals}.

(** What [click.handle] does with well-formed arguments on a session that
    has a Tab with a Snapshot: the resolver runs on the page, and its
    result is resolved against the Snapshot the Tab already had. *)
Lemma click_handle_unfold (c : Context) (t : Tab) (snap : PageSnapshot) (e r : string) :
  currentTab c = Some t ->
  currentSnapshot t = Some snap ->
  handle Tools.click (elementArguments e r) c =
  let c' := setCurrentTab {| page := snd (handleStaleRef (page t) r);
                             currentSnapshot := Some snap |} c in
  match fst (handleStaleRef (page t) r) with
  | Threw err => (Threw err, c')
  | Returned r' =>
      match refLocator snap r' with
      | Threw err => (Threw err, c')
      | Returned locator =>
          (Returned {| code := [ "// Click " ++ e;
                                 "await page." ++ generateLocator locator ++ ".click();" ];
                       action := Some (RunCall (Click locator));
                       captureSnapshot := true;
                       waitForNetwork := true |}, c')
      end
  end.
Proof.
  intros Ht Hs.
  unfold Tools.click, handle, elementArguments, bind, lift, ret, currentTabOrDie, onPage,
    snapshotOrDie, setCurrentTab.
  cbn -[handleStaleRef refLocator append generateLocator].
  rewrite !Ht.
  cbn -[handleStaleRef refLocator append generateLocator].
  destruct (handleStaleRef (page t) r) as [[r'|err] p'] eqn:Hh;
    cbn -[handleStaleRef refLocator append generateLocator]; rewrite Hs; [|reflexivity].
  destruct (refLocator snap r'); reflexivity.
Qed.


End ClickResolution.

(** ** The resolver on a stale reference of the form [s<g>e<i>] *)


(** C5.  When the search in the new Snapshot's text finds no reference
    with the expected prefix, the resolver returns the reference it was
    given, and [click.handle] resolves that very reference: it throws the
    reference error when no node of the Tab's Snapshot carries it, and a
    Pending Action it returns acts on the node that carries it. *)
Theorem unmatched_reference_kept {E : Externals}
  (c : Context) (t : Tab) (snap : PageSnapshot) (e r : string) :
  currentTab c = Some t ->
  currentSnapshot t = Some snap ->
  safeGeneration r ->
  (forall pos r',
      ~ refMatchAt (expectedPrefix r)
          (PageSnapshot_text (fst (PageSnapshot_create (page t)))) pos r') ->
  fst (handleStaleRef (page t) r) = Returned r /\
  ((forall n, In n (nodes snap) -> ariaRef n <> r) ->
   fst (handle Tools.click (elementArguments e r) c)
   = Threw (StaleOrUnknownReferenceError r)) /\
  (forall pending,
      fst (handle Tools.click (elementArguments e r) c) = Returned pending ->
      exists l, In l (nodes snap) /\ ariaRef l = r /\
                action pending = Some (RunCall (Click l))).
Proof.
  intros Ht Hs _ Hno.
  assert (Hr : fst (handleStaleRef (page t) r) = Returned r).
  { rewrite handleStaleRef_result.
    apply findRef_None in Hno; rewrite Hno; simpl.
    now destruct (startsWith r (ownPrefix r)). }
  split; [exact Hr|].
  rewrite (click_handle_unfold c t snap e r Ht Hs); cbv zeta; rewrite Hr.
  split.
  - intros Hn. now rewrite (refLocator_unknown _ _ Hn).
  - intros pending. destruct (refLocator snap r) as [l|err] eqn:Hl; simpl; [|discriminate].
    intros H; inversion H; subst; simpl.
    apply refLocator_found in Hl as [Hin Href]. now exists l.
Qed.


(** ** Effects of planning *)

Section Keeps.

Variable R : Context -> Context -> Prop.
Hypothesis R_refl : forall c, R c c.
Hypothesis R_trans : forall a b c, R a b -> R b c -> R a c.

Lemma keeps_ret {A : Type} (a : A) : keeps R (ret a).
Proof. intros c; apply R_refl. Qed.

Lemma keeps_lift {A : Type} (o : Outcome A) : keeps R (lift o).
Proof. intros c; apply R_refl. Qed.

Lemma keeps_bind {A B : Type} (m : Async Context A) (k : A -> Async Context B) :
  keeps R m -> (forall a, keeps R (k a)) -> keeps R (bind m k).
Proof.
  intros Hm Hk c; unfold bind.
  specialize (Hm c). destruct (m c) as [[a|e] c1]; simpl in *; [|assumption].
  eapply R_trans; [eassumption | apply Hk].
Qed.

Lemma keeps_currentTabOrDie : keeps R currentTabOrDie.
Proof. intros c; unfold currentTabOrDie; destruct (currentTab c); apply R_refl. Qed.

End Keeps.

Lemma untouched_trans (a b c : Context) : untouched a b -> untouched b c -> untouched a c.
Proof. unfold untouched; congruence. Qed.

Lemma sameCalls_trans (a b c : Context) : sameCalls a b -> sameCalls b c -> sameCalls a c.
Proof. unfold sameCalls; congruence. Qed.

Lemma sameCalls_ensureTab : keeps sameCalls ensureTab.
Proof.
  intros c; unfold ensureTab, sameCalls, issuedCalls.
  destruct (currentTab c) eqn:Ht; simpl; [now rewrite Ht | reflexivity].
Qed.

Lemma sameCalls_resolver (r : string) :
  keeps sameCalls (onPage (fun p => handleStaleRef p r)).
Proof.
  intros c; unfold onPage, sameCalls, issuedCalls.
  destruct (currentTab c) as [t|] eqn:Ht; simpl; [|now rewrite Ht].
  pose proof (handleStaleRef_page (page t) r) as Hp.
  destruct (handleStaleRef (page t) r) as [o p]; simpl in *; now subst p.
Qed.

Lemma untouched_bind {A B : Type} (m : Async Context A) (k : A -> Async Context B) :
  keeps untouched m -> (forall a, keeps untouched (k a)) -> keeps untouched (bind m k).
Proof. exact (keeps_bind untouched untouched_trans m k). Qed.

Lemma sameCalls_bind {A B : Type} (m : Async Context A) (k : A -> Async Context B) :
  keeps sameCalls m -> (forall a, keeps sameCalls (k a)) -> keeps sameCalls (bind m k).
Proof. exact (keeps_bind sameCalls sameCalls_trans m k). Qed.

Lemma untouched_refl (c : Context) : untouched c c.
Proof. reflexivity. Qed.

Lemma sameCalls_refl (c : Context) : sameCalls c c.
Proof. reflexivity. Qed.

Create HintDb planning.

#[local] Hint Resolve keeps_ret keeps_lift keeps_currentTabOrDie
  untouched_refl sameCalls_refl sameCalls_ensureTab sameCalls_resolver : planning.

(** Walks through a handler, one [await] at a time. *)
Ltac planning :=
  repeat (first
    [ apply untouched_bind; [| intros ?]
    | apply sameCalls_bind; [| intros ?]
    | match goal with |- keeps _ (let (_, _) := ?x in _) => destruct x end
    | solve [eauto with planning] ]).

Section Planning.

Context {E : Externals}.

(** The handlers other than [click.handle] leave the whole session as it
    was: they read the Tab's Snapshot and nothing else. *)
Lemma drag_untouched params : keeps untouched (handle Tools.drag params).
Proof. unfold Tools.drag, handle. planning. Qed.

Lemma hover_untouched params : keeps untouched (handle Tools.hover params).
Proof. unfold Tools.hover, handle. planning. Qed.

Lemma type_untouched params : keeps untouched (handle Tools.type params).
Proof. unfold Tools.type, handle. planning. Qed.

Lemma selectOption_untouched params : keeps untouched (handle Tools.selectOption params).
Proof. unfold Tools.selectOption, handle. planning. Qed.

Lemma selectRadio_untouched params : keeps untouched (handle Tools.selectRadio params).
Proof. unfold Tools.selectRadio, handle. planning. Qed.

Lemma screenshot_untouched params : keeps untouched (handle Tools.screenshot params).
Proof. unfold Tools.screenshot, handle. planning. Qed.

Lemma untouched_sameCalls {A : Type} (m : Async Context A) :
  keeps untouched m -> keeps sameCalls m.
Proof. intros H c; unfold sameCalls; now rewrite (H c). Qed.

(** No handler of [snapshot.ts] issues a side-effecting driver call. *)
Lemma planning_sameCalls (tool : Tool) (params : JsValue) :
  In tool Tools.all -> keeps sameCalls (handle tool params).
Proof.
  unfold Tools.all; simpl.
  intros [<-|[<-|[<-|[<-|[<-|[<-|[<-|[<-|[]]]]]]]]];
    auto using untouched_sameCalls, drag_untouched, hover_untouched, type_untouched,
      selectOption_untouched, selectRadio_untouched, screenshot_untouched.
  - unfold Tools.snapshot, handle. planning.
  - unfold Tools.click, handle. planning.
Qed.

End Planning.

Lemma yields_ret {A : Type} (P : A -> Prop) (a : A) : P a -> yields P (ret a).
Proof. intros H c a' c' E; inversion E; now subst. Qed.

Lemma yields_bind {A B : Type} (P : B -> Prop) (m : Async Context A)
  (k : A -> Async Context B) :
  (forall a, yields P (k a)) -> yields P (bind m k).
Proof.
  intros Hk c b c'; unfold bind.
  destruct (m c) as [[a|e] c1]; [apply Hk | discriminate].
Qed.

Lemma push_not_nil {A : Type} (l : list A) (x : A) : push l x <> [].
Proof. unfold push; destruct l; discriminate. Qed.

Section Planned.

Context {E : Externals}.

Lemma typePlan_planned (v : TypeParams) (l : Locator) :
  fst (Tools.typePlan v l) <> [] /\ hd_error (snd (Tools.typePlan v l)) <> None.
Proof.
  unfold Tools.typePlan.
  destruct (flag (slowly v)), (flag (submit v)); simpl; split; discriminate.
Qed.

(** Every handler of [snapshot.ts] returns its trace with the deferred
    operation. *)
Lemma handlers_planned (tool : Tool) (params : JsValue) :
  In tool Tools.all -> yields planned (handle tool params).
Proof.
  unfold Tools.all; simpl.
  intros [<-|[<-|[<-|[<-|[<-|[<-|[<-|[<-|[]]]]]]]]]; cbn [handle Tools.snapshot Tools.click
    Tools.drag Tools.hover Tools.type Tools.selectOption Tools.selectRadio Tools.screenshot];
    repeat (apply yields_bind; intros ?);
    try (apply yields_ret; split; cbn [code action];
         [discriminate | intros act Ha; inversion Ha; discriminate]).
  - match goal with v : TypeParams, l : Locator |- _ =>
      pose proof (typePlan_planned v l) as [Hc Hs];
      destruct (Tools.typePlan v l) as [trace steps]
    end; simpl in *.
    apply yields_ret; split; cbn [code action]; [assumption|].
    intros act Ha; inversion Ha; subst; assumption.
  - apply yields_ret; split; cbn [code action].
    + match goal with l : option Locator |- _ => destruct l end; apply push_not_nil.
    + intros act Ha; inversion Ha; discriminate.
Qed.

Lemma issue_calls (call : DriverCall) (p : Page) :
  driverCalls (snd (issue call p)) = push (driverCalls p) call.
Proof. unfold issue; now destruct (driverThrows call p). Qed.

End Planned.

Section Traces.

Context {E : Externals}.

Lemma typePlan_traced (v : TypeParams) (l : Locator) :
  snd (Tools.typePlan v l) <> [] /\
  exists comments,
    List.length comments = List.length (snd (Tools.typePlan v l)) /\
    Forall isComment comments /\
    fst (Tools.typePlan v l) = traceOf comments (snd (Tools.typePlan v l)).
Proof.
  unfold Tools.typePlan.
  destruct (flag (slowly v)), (flag (submit v)); cbn [fst snd push app];
    (split; [discriminate|]).
  - exists [ "// Press " ++ dquote ++ text v ++ dquote ++ " sequentially into "
               ++ dquote ++ type_element v ++ dquote; "// Submit text" ].
    repeat split; repeat constructor.
  - exists [ "// Press " ++ dquote ++ text v ++ dquote ++ " sequentially into "
               ++ dquote ++ type_element v ++ dquote ].
    repeat split; repeat constructor.
  - exists [ "// Fill " ++ dquote ++ text v ++ dquote ++ " into "
               ++ dquote ++ type_element v ++ dquote; "// Submit text" ].
    repeat split; repeat constructor.
  - exists [ "// Fill " ++ dquote ++ text v ++ dquote ++ " into "
               ++ dquote ++ type_element v ++ dquote ].
    repeat split; repeat constructor.
Qed.

(** Every handler of [snapshot.ts] returns such a plan. *)
Lemma handlers_traced (tool : Tool) (params : JsValue) :
  In tool Tools.all -> yields tracedPlan (handle tool params).
Proof.
  unfold Tools.all; simpl.
  intros [<-|[<-|[<-|[<-|[<-|[<-|[<-|[<-|[]]]]]]]]]; cbn [handle Tools.snapshot Tools.click
    Tools.drag Tools.hover Tools.type Tools.selectOption Tools.selectRadio Tools.screenshot];
    repeat (apply yields_bind; intros ?);
    try (apply yields_ret; unfold tracedPlan; cbn [action code callsOf];
         (split; [discriminate|]); eexists [_];
         (split; [reflexivity|]); (split; [|reflexivity]);
         repeat constructor).
  - apply yields_ret; reflexivity.
  - match goal with v : TypeParams, l : Locator |- _ =>
      pose proof (typePlan_traced v l) as (Hs & comments & Hl & Hc & Ht);
      destruct (Tools.typePlan v l) as [trace steps]
    end; cbn [fst snd] in *.
    apply yields_ret. unfold tracedPlan; cbn [action code callsOf].
    split; [exact Hs|]. now exists comments.
  - apply yields_ret.
    match goal with l : option Locator |- _ => destruct l end;
      unfold push; cbn [app]; unfold tracedPlan; cbn [action code callsOf];
      (split; [discriminate|]); eexists [_];
      (split; [reflexivity|]); (split; [|reflexivity]);
      repeat constructor.
Qed.

Lemma issueAll_prefix (steps : list DriverCall) (p : Page) :
  exists issued rest,
    steps = (issued ++ rest)%list /\
    (steps <> [] -> issued <> []) /\
    driverCalls (snd (issueAll steps p)) = (driverCalls p ++ issued)%list.
Proof.
  revert p; induction steps as [|s steps IH]; intros p; cbn [issueAll].
  - exists [], []. repeat split; [congruence | now rewrite app_nil_r].
  - pose proof (issue_calls s p) as Hs.
    destruct (issue s p) as [[[]|e] p1]; simpl in Hs.
    + destruct (IH p1) as (issued & rest & -> & _ & Hi).
      exists (s :: issued), rest. repeat split; [discriminate|].
      rewrite Hi, Hs. unfold push. now rewrite <- app_assoc.
    + exists [s], steps. repeat split; [discriminate | exact Hs].
Qed.

(** Running a deferred operation makes its driver calls in order, up to
    the first that throws, after the calls made before. *)
Lemma runAction_prefix (a : Action) (p : Page) :
  exists issued rest,
    callsOf a = (issued ++ rest)%list /\
    (callsOf a <> [] -> issued <> []) /\
    driverCalls (snd (runAction a p)) = (driverCalls p ++ issued)%list.
Proof.
  destruct a as [call|steps|target options]; cbn [callsOf runAction].
  - pose proof (issue_calls call p) as Hi.
    exists [call], []. repeat split; [discriminate|].
    destruct (issue call p) as [[[]|e] p1]; exact Hi.
  - destruct (issueAll_prefix steps p) as (issued & rest & Hs & Hne & Hi).
    exists issued, rest. repeat split; auto.
    destruct (issueAll steps p) as [[[]|e] p1]; exact Hi.
  - pose proof (issue_calls (Screenshot target options) p) as Hi.
    exists [Screenshot target options], []. repeat split; [discriminate|].
    destruct (issue (Screenshot target options) p) as [[[]|e] p1]; exact Hi.
Qed.

(** Only [browser_snapshot] returns without a deferred operation. *)
Lemma handlers_operation (tool : Tool) (params : JsValue) :
  In tool Tools.all ->
  yields (fun pending => action pending = None <-> name (schema tool) = "browser_snapshot")
    (handle tool params).
Proof.
  unfold Tools.all; simpl.
  intros [<-|[<-|[<-|[<-|[<-|[<-|[<-|[<-|[]]]]]]]]]; cbn [handle Tools.snapshot Tools.click
    Tools.drag Tools.hover Tools.type Tools.selectOption Tools.selectRadio Tools.screenshot
    schema name];
    repeat (apply yields_bind; intros ?);
    try match goal with |- yields _ (let (_, _) := ?x in _) => destruct x end;
    apply yields_ret; cbn [action]; split; try discriminate; auto.
Qed.

End Traces.

(** C9.  For every tool of the registry, a handler that returns has
    produced the complete trace and has made no side-effecting driver
    call.  The handler of [browser_snapshot], and no other, returns
    without a deferred operation, with its one line of trace; every other
    handler returns the deferred operation unrun, with a trace that gives
    each driver call of the operation, in order, a comment and its line of
    code, and nothing else.  The calls are made when the operation is run,
    after planning, in that order and up to the first that throws; the
    trace is already returned. *)
Theorem trace_precedes_deferred_operation {E : Externals}
  (tool : Tool) (params : JsValue) (c c' : Context) (pending : PendingAction) :
  In tool Tools.all ->
  handle tool params c = (Returned pending, c') ->
  code pending <> [] /\
  issuedCalls c' = issuedCalls c /\
  (action pending = None <-> name (schema tool) = "browser_snapshot") /\
  (action pending = None ->
   code pending = ["// <internal code to capture accessibility snapshot>"]) /\
  (forall a, action pending = Some a ->
     callsOf a <> [] /\
     (exists comments,
         List.length comments = List.length (callsOf a) /\
         Forall isComment comments /\
         code pending = traceOf comments (callsOf a)) /\
     (forall p, exists issued rest,
         callsOf a = (issued ++ rest)%list /\
         issued <> [] /\
         driverCalls (snd (runAction a p)) = (driverCalls p ++ issued)%list)).
Proof.
  intros Hin Hh.
  destruct (handlers_planned tool params Hin c pending c' Hh) as [Hcode _].
  pose proof (handlers_traced tool params Hin c pending c' Hh) as Ht.
  pose proof (handlers_operation tool params Hin c pending c' Hh) as Hnone.
  split; [exact Hcode|]. split.
  { pose proof (planning_sameCalls tool params Hin c) as Hk. now rewrite Hh in Hk. }
  split; [exact Hnone|]. unfold tracedPlan in Ht. split.
  - intros Ha. now rewrite Ha in Ht.
  - intros a Ha. rewrite Ha in Ht. destruct Ht as (Hne & Hc).
    split; [exact Hne|]. split; [exact Hc|].
    intros p. destruct (runAction_prefix a p) as (issued & rest & Hs & Hi & Hd).
    exists issued, rest. auto.
Qed.

(** ** The modal-state gate and the dispatcher *)

Lemma occursIn_refl (s : string) : occursIn s s.
Proof. exists "", ""; simpl; now rewrite append_empty_r. Qed.

Lemma occursIn_trans (a b c : string) : occursIn a b -> occursIn b c -> occursIn a c.
Proof.
  intros (p1 & q1 & ->) (p2 & q2 & ->).
  exists (p2 ++ p1), (q1 ++ q2). now rewrite !append_assoc.
Qed.

Lemma occursIn_append_l (a b c : string) : occursIn a b -> occursIn a (b ++ c).
Proof. intros (p & q & ->). exists p, (q ++ c). now rewrite !append_assoc. Qed.

Lemma occursIn_append_r (a b c : string) : occursIn a c -> occursIn a (b ++ c).
Proof. intros (p & q & ->). exists (b ++ p), q. now rewrite !append_assoc. Qed.

Lemma occursIn_join (sep line : string) (lines : list string) :
  In line lines -> occursIn line (join sep lines).
Proof.
  induction lines as [|l rest IH]; [intros []|].
  intros [->|Hin].
  - destruct rest; [apply occursIn_refl | apply occursIn_append_l, occursIn_refl].
  - specialize (IH Hin). destruct rest as [|l' rest']; [destruct Hin|].
    change (join sep (l :: l' :: rest')) with (l ++ sep ++ join sep (l' :: rest')).
    now apply occursIn_append_r, occursIn_append_r.
Qed.

Lemma includes_In (l : list string) (T : string) :
  includes l (Some T) = true <-> In T l.
Proof.
  unfold includes; rewrite existsb_exists; split.
  - intros (x & Hin & Heq). apply String.eqb_eq in Heq; now subst.
  - intros Hin. exists T; split; [assumption | apply String.eqb_refl].
Qed.

Lemma truthy_true (s : string) : truthy s = true <-> s <> "".
Proof. destruct s; simpl; split; congruence. Qed.

Section Dispatcher.

Context {E : Externals}.

Variable run : Tool -> JsValue -> Async Context Response.

Lemma gate_clearing (tool : Tool) (c : Context) (T : string) :
  clearsModalState tool = Some T -> T <> "" ->
  (gateRejects tool c = false <-> In T (map type (modalStates c))).
Proof.
  intros Hc Hne; unfold gateRejects; rewrite Hc; simpl.
  apply truthy_true in Hne; rewrite Hne; simpl.
  rewrite orb_false_r, negb_false_iff. apply includes_In.
Qed.

Lemma gate_plain (tool : Tool) (c : Context) :
  clearsModalState tool = None ->
  (gateRejects tool c = false <-> modalStates c = []).
Proof.
  intros Hc; unfold gateRejects; rewrite Hc; simpl.
  rewrite length_map. destruct (modalStates c); simpl; split; congruence.
Qed.

Lemma handleToolExecution_rejected (tool : Tool) (request : CallToolRequest) (c : Context) :
  gateRejects tool c = true ->
  handleToolExecution run tool request c
  = (Returned (createErrorResponse (rejectionText request c)), c).
Proof. intros H; unfold handleToolExecution; now rewrite H. Qed.

Lemma handleToolExecution_admitted (tool : Tool) (request : CallToolRequest) (c : Context) :
  gateRejects tool c = false ->
  handleToolExecution run tool request c
  = match run tool (params_arguments request) c with
    | (Returned response, c') => (Returned response, c')
    | (Threw error, c') => (Returned (createErrorResponse (errorString error)), c')
    end.
Proof. intros H; unfold handleToolExecution; now rewrite H. Qed.

End Dispatcher.

(** C1.  The gate admits a tool that declares [clearsModalState = T]
    exactly when [T] is the type of an active modal state, and a tool that
    declares none exactly when no modal state is active.  An admitted call
    is handed to [context.run]; a rejected one is answered with the
    rejection whatever [context.run] is, and leaves the session as it was:
    the handler is not run. *)
Theorem modal_state_gate {E : Externals}
  (run : Tool -> JsValue -> Async Context Response)
  (tool : Tool) (request : CallToolRequest) (c : Context) :
  (forall T, clearsModalState tool = Some T -> T <> "" ->
     (gateRejects tool c = false <-> In T (map type (modalStates c)))) /\
  (clearsModalState tool = None ->
     (gateRejects tool c = false <-> modalStates c = [])) /\
  (gateRejects tool c = false ->
     handleToolExecution run tool request c
     = match run tool (params_arguments request) c with
       | (Returned response, c') => (Returned response, c')
       | (Threw error, c') => (Returned (createErrorResponse (errorString error)), c')
       end) /\
  (gateRejects tool c = true ->
     forall run',
       handleToolExecution run' tool request c
       = (Returned (createErrorResponse (rejectionText request c)), c)).
Proof.
  repeat split.
  - now apply gate_clearing.
  - now apply gate_clearing.
  - now apply gate_plain.
  - now apply gate_plain.
  - now apply handleToolExecution_admitted.
  - intros H run'. now apply handleToolExecution_rejected.
Qed.

(** C7.  A call the gate rejects is answered with an error response (one
    text item, [isError] set) whose text is the line naming the tool
    followed by the line of every active modal state, with its type and
    its description; the session (active modal states, current Tab, its
    Snapshot and its page) is returned as it was. *)
Theorem gate_rejection_response {E : Externals}
  (run : Tool -> JsValue -> Async Context Response)
  (tools : list Tool) (request : CallToolRequest) (c : Context) (tool : Tool) :
  lookup tools request = Some tool ->
  gateRejects tool c = true ->
  callTool run tools request c
  = (Returned {| content := [TextContent (rejectionText request c)]; isError := true |}, c) /\
  rejectionText request c
  = join newline (("Tool " ++ dquote ++ name (schema tool) ++ dquote
                     ++ " does not handle the modal state.")
                    :: map modalStateLine (modalStates c)) /\
  occursIn (name (schema tool)) (rejectionText request c) /\
  (forall s, In s (modalStates c) ->
     occursIn (modalStateLine s) (rejectionText request c) /\
     occursIn (type s) (rejectionText request c) /\
     occursIn (description s) (rejectionText request c)).
Proof.
  intros Hl Hg. split; [|split; [|split]].
  - unfold callTool; unfold lookup in Hl; rewrite Hl.
    now rewrite handleToolExecution_rejected.
  - apply find_some in Hl as [_ Hn]. apply String.eqb_eq in Hn; now rewrite Hn.
  - apply find_some in Hl as [_ Hn]. apply String.eqb_eq in Hn; rewrite Hn.
    unfold rejectionText. eapply occursIn_trans; [|apply occursIn_join; left; reflexivity].
    apply occursIn_append_r, occursIn_append_r, occursIn_append_l, occursIn_refl.
  - intros s Hs.
    assert (Hline : occursIn (modalStateLine s) (rejectionText request c)).
    { unfold rejectionText. apply occursIn_join; right.
      unfold modalStatesMarkdown. now apply in_map. }
    split; [exact Hline|]. split.
    + eapply occursIn_trans; [|exact Hline]. unfold modalStateLine.
      apply occursIn_append_r, occursIn_append_l, occursIn_refl.
    + eapply occursIn_trans; [|exact Hline]. unfold modalStateLine.
      apply occursIn_append_r, occursIn_append_r, occursIn_append_r, occursIn_refl.
Qed.

(** ** Exceptions on the way through [Context.run] *)

Section Stages.

Context {E : Externals}.

(** An exception thrown while planning leaves [Context.run] as it is. *)
Lemma Context_run_planning_throws (tool : Tool) (arguments : JsValue)
  (c c1 : Context) (e : JsError) :
  handle tool arguments c = (Threw e, c1) ->
  Context_run tool arguments c = (Threw e, c1).
Proof. intros H; unfold Context_run, bind; now rewrite H. Qed.

(** So does an exception thrown by the deferred operation. *)
Lemma Context_run_action_throws (tool : Tool) (arguments : JsValue)
  (c c1 c2 : Context) (pending : PendingAction) (a : Action) (e : JsError) :
  handle tool arguments c = (Returned pending, c1) ->
  action pending = Some a ->
  onPage (runAction a) c1 = (Threw e, c2) ->
  Context_run tool arguments c = (Threw e, c2).
Proof. intros H Ha Hr; unfold Context_run, bind; now rewrite H, Ha, Hr. Qed.

Lemma lift_throws {A B : Type} (o : Outcome A) (k : A -> Async Context B)
  (e : JsError) (c : Context) :
  thrown o = Some e -> bind (lift o) k c = (Threw e, c).
Proof. destruct o; simpl; intros H; inversion H; reflexivity. Qed.

(** Validation is the first thing a handler does: when it fails, the
    handler throws its error and the session is as it was. *)
Lemma validation_first (tool : Tool) (validate : JsValue -> option JsError)
  (params : JsValue) (c : Context) (e : JsError) :
  In (tool, validate) validations ->
  validate params = Some e ->
  handle tool params c = (Threw e, c).
Proof.
  unfold validations; simpl.
  intros [H|[H|[H|[H|[H|[H|[H|[]]]]]]]]; inversion H; subst; clear H; intros Hv;
    cbn [handle Tools.click Tools.drag Tools.hover Tools.type Tools.selectOption
           Tools.selectRadio Tools.screenshot];
    now apply lift_throws.
Qed.

Lemma elementSchema_error (v : JsValue) (e : JsError) :
  thrown (elementSchema_parse v) = Some e -> exists issues, e = InvalidArgumentsError issues.
Proof.
  unfold elementSchema_parse; destruct v; simpl; intros H; try (inversion H; eauto; fail).
  destruct (zString _ _), (zString _ _); simpl in H; inversion H; eauto.
Qed.

Lemma dragSchema_error (v : JsValue) (e : JsError) :
  thrown (dragSchema_parse v) = Some e -> exists issues, e = InvalidArgumentsError issues.
Proof.
  unfold dragSchema_parse; destruct v; simpl; intros H; try (inversion H; eauto; fail).
  destruct (zString _ _), (zString _ _), (zString _ _), (zString _ _);
    simpl in H; inversion H; eauto.
Qed.

Lemma typeSchema_error (v : JsValue) (e : JsError) :
  thrown (typeSchema_parse v) = Some e -> exists issues, e = InvalidArgumentsError issues.
Proof.
  unfold typeSchema_parse; destruct v; simpl; intros H; try (inversion H; eauto; fail).
  destruct (zString _ _), (zString _ _), (zString _ _),
    (zBooleanOptional _ _), (zBooleanOptional _ _); simpl in H; inversion H; eauto.
Qed.

Lemma selectOptionSchema_error (v : JsValue) (e : JsError) :
  thrown (selectOptionSchema_parse v) = Some e ->
  exists issues, e = InvalidArgumentsError issues.
Proof.
  unfold selectOptionSchema_parse; destruct v; simpl; intros H;
    try (inversion H; eauto; fail).
  destruct (zString _ _), (zString _ _), (zStringArray _ _); simpl in H; inversion H; eauto.
Qed.

Lemma selectRadioSchema_error (v : JsValue) (e : JsError) :
  thrown (selectRadioSchema_parse v) = Some e ->
  exists issues, e = InvalidArgumentsError issues.
Proof.
  unfold selectRadioSchema_parse; destruct v; simpl; intros H;
    try (inversion H; eauto; fail).
  destruct (zString _ _), (zString _ _), (zString _ _); simpl in H; inversion H; eauto.
Qed.

Lemma screenshotSchema_error (v : JsValue) (e : JsError) :
  thrown (screenshotSchema_parse v) = Some e ->
  exists issues, e = InvalidArgumentsError issues.
Proof.
  unfold screenshotSchema_parse; destruct v; simpl; intros H;
    try (inversion H; eauto; fail).
  destruct (zBooleanOptional _ _), (zStringOptional _ _), (zStringOptional _ _);
    simpl in H; try (inversion H; eauto; fail).
  destruct (Bool.eqb _ _); simpl in H; inversion H; eauto.
Qed.

Lemma validation_error (tool : Tool) (validate : JsValue -> option JsError)
  (params : JsValue) (e : JsError) :
  In (tool, validate) validations ->
  validate params = Some e ->
  exists issues, e = InvalidArgumentsError issues.
Proof.
  unfold validations; simpl.
  intros [H|[H|[H|[H|[H|[H|[H|[]]]]]]]]; inversion H; subst; clear H;
    eauto using elementSchema_error, dragSchema_error, typeSchema_error,
      selectOptionSchema_error, selectRadioSchema_error, screenshotSchema_error.
Qed.

End Stages.

(** C6.  The call-tool handler always returns a response, whatever
    [context.run] does.  An unknown tool name, a rejection by the gate and
    any exception thrown out of [context.run] are each answered with
    [{content: [{type: text, text: message}], isError: true}].  With
    [Context.run] as the specification describes it, an exception thrown
    while planning (a validation error among them) or by the deferred
    operation is such an exception. *)
Theorem failures_become_error_responses {E : Externals}
  (run : Tool -> JsValue -> Async Context Response)
  (tools : list Tool) (request : CallToolRequest) (c : Context) :
  (exists response c', callTool run tools request c = (Returned response, c')) /\
  (lookup tools request = None ->
     callTool run tools request c
     = (Returned {| content := [TextContent ("Tool " ++ dquote ++ params_name request
                                               ++ dquote ++ " not found")];
                    isError := true |}, c)) /\
  (forall tool,
     lookup tools request = Some tool -> gateRejects tool c = true ->
     callTool run tools request c
     = (Returned {| content := [TextContent (rejectionText request c)];
                    isError := true |}, c)) /\
  (forall tool e c1,
     lookup tools request = Some tool -> gateRejects tool c = false ->
     run tool (params_arguments request) c = (Threw e, c1) ->
     callTool run tools request c
     = (Returned {| content := [TextContent (errorString e)]; isError := true |}, c1)) /\
  (forall tool e c1,
     lookup tools request = Some tool -> gateRejects tool c = false ->
     handle tool (params_arguments request) c = (Threw e, c1) ->
     callTool Context_run tools request c
     = (Returned {| content := [TextContent (errorString e)]; isError := true |}, c1)) /\
  (forall tool pending a e c1 c2,
     lookup tools request = Some tool -> gateRejects tool c = false ->
     handle tool (params_arguments request) c = (Returned pending, c1) ->
     action pending = Some a ->
     onPage (runAction a) c1 = (Threw e, c2) ->
     callTool Context_run tools request c
     = (Returned {| content := [TextContent (errorString e)]; isError := true |}, c2)).
Proof.
  assert (Hthrow : forall run' tool e c1,
             lookup tools request = Some tool -> gateRejects tool c = false ->
             run' tool (params_arguments request) c = (Threw e, c1) ->
             callTool run' tools request c
             = (Returned (createErrorResponse (errorString e)), c1)).
  { intros run' tool e c1 Hl Hg Hr. unfold callTool; unfold lookup in Hl; rewrite Hl.
    rewrite (handleToolExecution_admitted run' _ _ _ Hg). now rewrite Hr. }
  split; [|split; [|split; [|split; [|split]]]].
  - unfold callTool. fold (lookup tools request).
    destruct (lookup tools request) as [tool|]; [|now eexists _, _].
    unfold handleToolExecution.
    destruct (gateRejects tool c); [now eexists _, _|].
    destruct (run tool (params_arguments request) c) as [[response|e] c1]; now eexists _, _.
  - intros Hl. unfold callTool; unfold lookup in Hl; now rewrite Hl.
  - intros tool Hl Hg. unfold callTool; unfold lookup in Hl; rewrite Hl.
    now apply handleToolExecution_rejected.
  - intros tool e c1. apply Hthrow.
  - intros tool e c1 Hl Hg Hh. apply (Hthrow _ tool); auto.
    now apply Context_run_planning_throws.
  - intros tool pending a e c1 c2 Hl Hg Hh Ha Hr. apply (Hthrow _ tool); auto.
    now apply (Context_run_action_throws tool _ c c1 c2 pending a e).
Qed.

(** C8, as the code has it.  For every tool of [snapshot.ts] that takes
    arguments, validation is the first step of the handler: on arguments
    that violate the schema it throws the validation error, before the Tab
    is looked up or the driver called, and the session is as it was; a
    call the gate admits is answered with that error.  The gate comes
    before the handler: a call it rejects is answered with the rejection,
    valid arguments or not. *)
Theorem validation_follows_the_gate {E : Externals}
  (tool : Tool) (validate : JsValue -> option JsError)
  (request : CallToolRequest) (c : Context) (e : JsError) :
  In (tool, validate) validations ->
  validate (params_arguments request) = Some e ->
  (exists issues, e = InvalidArgumentsError issues) /\
  handle tool (params_arguments request) c = (Threw e, c) /\
  (gateRejects tool c = false ->
     handleToolExecution Context_run tool request c
     = (Returned (createErrorResponse (errorString e)), c)) /\
  (gateRejects tool c = true ->
     handleToolExecution Context_run tool request c
     = (Returned (createErrorResponse (rejectionText request c)), c)).
Proof.
  intros Hin Hv.
  pose proof (validation_first tool validate _ c e Hin Hv) as Hh.
  split; [now apply (validation_error tool validate (params_arguments request))|].
  split; [exact Hh|]. split.
  - intros Hg. rewrite (handleToolExecution_admitted _ _ _ _ Hg).
    now rewrite (Context_run_planning_throws _ _ _ _ _ Hh).
  - now apply handleToolExecution_rejected.
Qed.

(** ** Where the tools part from the specification *)

(** C3, on the code.  The session holds the Snapshot of generation 3, in
    which [s3e2] is the link.  [browser_click] with [s3e2] does not resolve
    it directly: the resolver captures generation 4 and returns [s4e1], the
    first reference of the new text, and that reference is what the handler
    resolves against the Tab's Snapshot, which has no such node.
    [browser_hover], which does not call the resolver, resolves [s3e2] to
    the link. *)
Theorem current_reference_is_rewritten :
  generation exampleSnapshot = pageGeneration examplePage /\
  refLocator exampleSnapshot "s3e2"
  = Returned {| ariaRef := "s3e2"; node := "link Home" |} /\
  handleStaleRef examplePage "s3e2" = (Returned "s4e1", recapturedPage) /\
  handle (@Tools.click exampleWorld) (elementArguments "Home link" "s3e2") exampleContext
  = (Threw (StaleOrUnknownReferenceError "s4e1"),
     {| modalStates := [];
        currentTab := Some {| page := recapturedPage;
                              currentSnapshot := Some exampleSnapshot |} |}) /\
  (exists pending,
     handle (@Tools.hover exampleWorld) (elementArguments "Home link" "s3e2") exampleContext
     = (Returned pending, exampleContext) /\
     action pending
     = Some (RunCall (Hover {| ariaRef := "s3e2"; node := "link Home" |}))).
Proof.
  repeat split; try reflexivity.
  eexists; split; reflexivity.
Qed.

(** C4, on the code.  Of the tools that take a reference, only
    [browser_click] calls the resolver.  The handlers of drag, hover, type,
    select-option, select-radio and screenshot leave the session as it was,
    whatever the arguments, while the resolver always advances the
    generation of the page: so they never call it.  With the stale [s2e1],
    [browser_hover] fails on the reference as it was given, and no Snapshot
    was captured. *)
Theorem other_tools_skip_the_resolver {E : Externals} (params : JsValue) (c : Context) :
  snd (handle Tools.drag params c) = c /\
  snd (handle Tools.hover params c) = c /\
  snd (handle Tools.type params c) = c /\
  snd (handle Tools.selectOption params c) = c /\
  snd (handle Tools.selectRadio params c) = c /\
  snd (handle Tools.screenshot params c) = c /\
  (forall p r, pageGeneration (snd (handleStaleRef p r)) <> pageGeneration p) /\
  handle (@Tools.hover exampleWorld) (elementArguments "OK button" "s2e1") exampleContext
  = (Threw (StaleOrUnknownReferenceError "s2e1"), exampleContext).
Proof.
  repeat split.
  - apply drag_untouched.
  - apply hover_untouched.
  - apply type_untouched.
  - apply selectOption_untouched.
  - apply selectRadio_untouched.
  - apply screenshot_untouched.
  - intros p r. rewrite handleStaleRef_page; simpl. lia.
Qed.

(** C8 as stated fails.  [browser_click] is called without arguments while
    a dialog is open: the arguments violate the schema, and the answer is
    the gate's rejection, not the validation error. *)
Lemma invalid_arguments_meet_the_gate_first :
  elementSchema_parse (params_arguments clickWithoutArguments)
  = Threw (InvalidArgumentsError [ invalid_type ["element"] "string" "undefined";
                                   invalid_type ["ref"] "string" "undefined" ]) /\
  @callTool exampleWorld (@Context_run exampleWorld) (@Tools.all exampleWorld)
    clickWithoutArguments dialogContext
  = (Returned (createErrorResponse
                 ("Tool " ++ dquote ++ "browser_click" ++ dquote
                    ++ " does not handle the modal state." ++ newline
                    ++ "- dialog: alert dialog: Leave site?")),
     dialogContext) /\
  fst (@callTool exampleWorld (@Context_run exampleWorld) (@Tools.all exampleWorld)
         clickWithoutArguments dialogContext)
  <> Returned (createErrorResponse
                 (@errorString exampleWorld
                    (InvalidArgumentsError
                       [ invalid_type ["element"] "string" "undefined";
                         invalid_type ["ref"] "string" "undefined" ]))).
Proof.
  split; [reflexivity|]. split; [reflexivity|].
  vm_compute; discriminate.
Qed.


(** [browser_snapshot] is a tool of the registry, and its handler returns
    its trace with no deferred operation. *)
Lemma snapshot_handler_returns_no_operation :
  In Tools.snapshot (@Tools.all exampleWorld) /\
  handle Tools.snapshot (JsObject []) exampleContext
  = (Returned {| code := ["// <internal code to capture accessibility snapshot>"];
                 action := None;
                 captureSnapshot := true;
                 waitForNetwork := false |}, exampleContext).
Proof. split; [left; reflexivity | reflexivity]. Qed.

(** ** The theorems at work on the sessions of the examples *)

(** The dialog tool is admitted while the dialog is open, and
    [browser_hover] is rejected. *)
Lemma modal_state_gate_witness :
  gateRejects dialogTool dialogContext = false /\
  @handleToolExecution exampleWorld idleRun (@Tools.hover exampleWorld) hoverLink dialogContext
  = (Returned (createErrorResponse (rejectionText hoverLink dialogContext)), dialogContext).
Proof.
  split.
  - apply (proj1 (@modal_state_gate exampleWorld idleRun dialogTool acceptDialog
                    dialogContext) "dialog").
    + reflexivity.
    + discriminate.
    + simpl; auto.
  - apply (proj2 (proj2 (proj2 (@modal_state_gate exampleWorld idleRun
                                  (@Tools.hover exampleWorld) hoverLink dialogContext)))).
    reflexivity.
Defined.


(** The stale [s2e2] on the session of the examples: no reference of the
    new text starts with [s3e], and the click fails on [s2e2] itself. *)
Lemma unmatched_reference_kept_witness :
  fst (handleStaleRef examplePage "s2e2") = Returned "s2e2" /\
  fst (handle (@Tools.click exampleWorld) (elementArguments "Home link" "s2e2")
         exampleContext)
  = Threw (StaleOrUnknownReferenceError "s2e2").
Proof.
  assert (Hsafe : safeGeneration "s2e2") by (vm_compute; discriminate).
  assert (Hno : forall pos r',
             ~ refMatchAt (expectedPrefix "s2e2")
                 (PageSnapshot_text (fst (PageSnapshot_create (page exampleTab)))) pos r')
    by (apply findRef_None; reflexivity).
  destruct (@unmatched_reference_kept exampleWorld exampleContext exampleTab exampleSnapshot
              "Home link" "s2e2" eq_refl eq_refl Hsafe Hno) as (Hr & Hc & _).
  split; [exact Hr|]. apply Hc.
  simpl. intros n [<-|[<-|[]]]; discriminate.
Defined.

(** The unknown tool of scenario 6. *)
Lemma failures_become_error_responses_witness :
  @callTool exampleWorld (@Context_run exampleWorld) (@Tools.all exampleWorld)
    teleport exampleContext
  = (Returned {| content := [TextContent ("Tool " ++ dquote ++ "browser_teleport"
                                            ++ dquote ++ " not found")];
                 isError := true |}, exampleContext).
Proof.
  apply (proj1 (proj2 (@failures_become_error_responses exampleWorld
                         (@Context_run exampleWorld) (@Tools.all exampleWorld)
                         teleport exampleContext))).
  reflexivity.
Defined.

(** Scenario 2: [browser_hover] while the dialog is open. *)
Lemma gate_rejection_response_witness :
  @callTool exampleWorld (@Context_run exampleWorld) (@Tools.all exampleWorld)
    hoverLink dialogContext
  = (Returned {| content :=
                   [TextContent ("Tool " ++ dquote ++ "browser_hover" ++ dquote
                                   ++ " does not handle the modal state." ++ newline
                                   ++ "- dialog: alert dialog: Leave site?")];
                 isError := true |}, dialogContext) /\
  occursIn "browser_hover" (rejectionText hoverLink dialogContext) /\
  occursIn "dialog" (rejectionText hoverLink dialogContext).
Proof.
  destruct (@gate_rejection_response exampleWorld (@Context_run exampleWorld)
              (@Tools.all exampleWorld) hoverLink dialogContext (@Tools.hover exampleWorld)
              eq_refl eq_refl) as (Hr & _ & Hn & Hs).
  split; [exact Hr|]. split; [exact Hn|].
  apply (Hs {| type := "dialog"; description := "alert dialog: Leave site?" |}).
  simpl; auto.
Defined.

(** [browser_click] without arguments, no modal state active. *)
Lemma validation_follows_the_gate_witness :
  @handleToolExecution exampleWorld (@Context_run exampleWorld) (@Tools.click exampleWorld)
    clickWithoutArguments exampleContext
  = (Returned (createErrorResponse "ZodError: invalid arguments"), exampleContext).
Proof.
  destruct (@validation_follows_the_gate exampleWorld (@Tools.click exampleWorld)
              (fun v => thrown (elementSchema_parse v)) clickWithoutArguments exampleContext
              (InvalidArgumentsError [ invalid_type ["element"] "string" "undefined";
                                       invalid_type ["ref"] "string" "undefined" ]))
    as (_ & _ & Ha & _).
  - simpl; auto.
  - reflexivity.
  - apply Ha. reflexivity.
Defined.

(** [browser_hover] on the link: the handler returns the two lines of its
    trace with the hover as a value, and the hover is made when the
    deferred operation is run. *)
Lemma trace_precedes_deferred_operation_witness :
  exists pending,
    handle (@Tools.hover exampleWorld) (elementArguments "Home link" "s3e2") exampleContext
    = (Returned pending, exampleContext) /\
    code pending = [ "// Hover over Home link";
                     "await page.locator('aria-ref=s3e2').hover();" ] /\
    action pending = Some (RunCall (Hover {| ariaRef := "s3e2"; node := "link Home" |})) /\
    issuedCalls exampleContext = [] /\
    (exists comments,
        List.length comments = 1%nat /\
        Forall isComment comments /\
        code pending
        = @traceOf exampleWorld comments
            [Hover {| ariaRef := "s3e2"; node := "link Home" |}]) /\
    (forall p, exists issued rest,
        [Hover {| ariaRef := "s3e2"; node := "link Home" |}] = (issued ++ rest)%list /\
        issued <> [] /\
        driverCalls
          (snd (@runAction exampleWorld
                  (RunCall (Hover {| ariaRef := "s3e2"; node := "link Home" |})) p))
        = (driverCalls p ++ issued)%list).
Proof.
  eexists. split; [reflexivity|].
  destruct (@trace_precedes_deferred_operation exampleWorld (@Tools.hover exampleWorld)
              (elementArguments "Home link" "s3e2") exampleContext exampleContext _
              (or_intror (or_intror (or_intror (or_introl eq_refl)))) eq_refl)
    as (_ & Hi & _ & _ & Ha).
  destruct (Ha _ eq_refl) as (_ & Ht & Hr).
  split; [reflexivity|]. split; [reflexivity|]. split; [exact Hi|].
  split; [exact Ht | exact Hr].
Defined.


(** * Further properties of the code *)

(** ** The server and its environment *)

Lemma getField_setField_same (key : string) (v : JsValue) (fields : list (string * JsValue)) :
  getField key (setField key v fields) = v.
Proof.
  induction fields as [|[k v'] rest IH]; simpl.
  - now rewrite String.eqb_refl.
  - destruct (String.eqb k key) eqn:Hk; simpl; [now rewrite String.eqb_refl|].
    now rewrite Hk.
Qed.

Lemma getField_setField_other (key other : string) (v : JsValue)
  (fields : list (string * JsValue)) :
  other <> key -> getField other (setField key v fields) = getField other fields.
Proof.
  intros Hne. induction fields as [|[k v'] rest IH]; simpl.
  - destruct (String.eqb_spec key other); [congruence | reflexivity].
  - destruct (String.eqb_spec k key) as [->|Hk]; simpl.
    + destruct (String.eqb_spec key other); [congruence | reflexivity].
    + destruct (String.eqb_spec k other); [reflexivity | exact IH].
Qed.

Lemma provided_inv (x : option string) :
  provided x = true -> exists s, x = Some s /\ s <> "" /\ orElse x "" = s.
Proof.
  destruct x as [[|c s]|]; simpl; try discriminate.
  intros _; eexists; repeat split; discriminate.
Qed.

Lemma provided_false (x : option string) :
  provided x = false -> x = None \/ x = Some "".
Proof. destruct x as [[|c s]|]; simpl; auto; discriminate. Qed.

(** [createServerWithTools] returns exactly when both variables are set
    and not empty.  The server then has the name, version, tools and
    resources of the options, and its [Context] was given the two
    credentials of the environment, whatever the options said for them,
    and every other field of the options as it was.  Otherwise the
    environment error is thrown: a variable is unset or empty. *)
Theorem server_takes_credentials_from_environment (env : Env) (options : Options) :
  match createServerWithTools env options with
  | Returned server =>
      (exists e p,
          env "EMAILADDRESS" = Some e /\ e <> "" /\
          env "PASSWORD" = Some p /\ p <> "" /\
          getField "emailaddress" (contextFields server) = JsString e /\
          getField "password" (contextFields server) = JsString p) /\
      (forall key, key <> "emailaddress" -> key <> "password" ->
                   getField key (contextFields server)
                   = getField key (contextOptions options)) /\
      serverName server = options_name options /\
      serverVersion server = options_version options /\
      serverTools server = options_tools options /\
      serverResources server = options_resources options
  | Threw err =>
      (env "EMAILADDRESS" = None \/ env "EMAILADDRESS" = Some "" \/
       env "PASSWORD" = None \/ env "PASSWORD" = Some "") /\
      err = PreconditionError
              "Required environment variables EMAILADDRESS and PASSWORD must be set"
  end.
Proof.
  unfold createServerWithTools, validateEnvironmentVars.
  destruct (provided (env "EMAILADDRESS")) eqn:He; simpl.
  - destruct (provided (env "PASSWORD")) eqn:Hp; simpl.
    + apply provided_inv in He as (e & He & Hne & Hoe).
      apply provided_inv in Hp as (p & Hp & Hnp & Hop).
      rewrite Hoe, Hop. unfold spread; simpl. repeat split.
      * exists e, p. repeat split; auto.
        -- rewrite getField_setField_other by discriminate.
           apply getField_setField_same.
        -- apply getField_setField_same.
      * intros key H1 H2. now rewrite !getField_setField_other by congruence.
    + apply provided_false in Hp. split; [tauto | reflexivity].
  - apply provided_false in He. split; [tauto | reflexivity].
Qed.

(** ** Listing and calling *)

Lemma find_first {A : Type} (f : A -> bool) (l : list A) (a : A) :
  find f l = Some a <->
  exists before after, l = (before ++ a :: after)%list /\ f a = true /\
                       forall b, In b before -> f b = false.
Proof.
  induction l as [|x l IH]; simpl.
  - split; [discriminate|]. intros (before & after & H & _); destruct before; discriminate.
  - destruct (f x) eqn:Hx.
    + split.
      * intros H; inversion H; subst. exists [], l; simpl; intuition.
      * intros (before & after & H & Ha & Hb). destruct before as [|b before].
        -- simpl in H; inversion H; now subst.
        -- simpl in H; inversion H; subst. rewrite (Hb b) in Hx by (left; reflexivity).
           discriminate.
    + rewrite IH; split.
      * intros (before & after & -> & Ha & Hb). exists (x :: before), after; simpl.
        repeat split; auto. intros b [<-|Hin]; auto.
      * intros (before & after & H & Ha & Hb). destruct before as [|b before].
        -- simpl in H; inversion H; subst; congruence.
        -- simpl in H; inversion H; subst. exists before, after. repeat split; auto.
           intros b' Hin; apply Hb; now right.
Qed.

Lemma find_none_iff {A : Type} (f : A -> bool) (l : list A) :
  find f l = None <-> forall a, In a l -> f a = false.
Proof.
  split; [apply find_none|].
  induction l as [|x l IH]; simpl; [reflexivity|]. intros H.
  rewrite (H x) by (left; reflexivity). apply IH; intros a Ha; apply H; now right.
Qed.

(** The names [ListTools] gives are the names [CallTool] serves: the
    search of [CallTool] finds no tool exactly when the name is not
    listed, and the call is then answered with the not-found error
    response, the session untouched; a name is listed exactly when the
    list splits at a first tool with that name, and the call is then the
    execution of that tool. *)
Theorem listed_tools_are_the_callable_ones {E : Externals}
  (run : Tool -> JsValue -> Async Context Response)
  (tools : list Tool) (request : CallToolRequest) (c : Context) :
  (lookup tools request = None <->
   ~ In (params_name request) (map name (listTools tools))) /\
  (~ In (params_name request) (map name (listTools tools)) ->
   callTool run tools request c
   = (Returned {| content := [TextContent ("Tool " ++ dquote ++ params_name request
                                             ++ dquote ++ " not found")];
                  isError := true |}, c)) /\
  (In (params_name request) (map name (listTools tools)) <->
   exists before tool after,
     tools = (before ++ tool :: after)%list /\
     name (schema tool) = params_name request /\
     (forall t, In t before -> name (schema t) <> params_name request) /\
     callTool run tools request c = handleToolExecution run tool request c).
Proof.
  unfold listTools; rewrite map_map.
  assert (Hnone : lookup tools request = None <->
                  ~ In (params_name request) (map (fun t => name (schema t)) tools)).
  { unfold lookup; rewrite find_none_iff, in_map_iff. split.
    - intros H (t & Hn & Hin). specialize (H t Hin).
      apply String.eqb_neq in H. congruence.
    - intros H t Hin. apply String.eqb_neq. intros Hn. apply H. now exists t. }
  split; [exact Hnone|]. split.
  - intros H. apply Hnone in H.
    unfold callTool; unfold lookup in H; now rewrite H.
  - split.
    + intros Hin. destruct (lookup tools request) as [tool|] eqn:Hl.
      * pose proof Hl as Hf. unfold lookup in Hf.
        apply find_first in Hf as (before & after & -> & Hn & Hb).
        exists before, tool, after. apply String.eqb_eq in Hn. repeat split; auto.
        -- intros t Ht. apply String.eqb_neq. now apply Hb.
        -- unfold callTool; unfold lookup in Hl; now rewrite Hl.
      * exfalso. now apply (proj1 Hnone eq_refl).
    + intros (before & tool & after & -> & Hn & _ & _).
      apply in_map_iff. exists tool; split; [exact Hn|].
      apply in_or_app; right; left; reflexivity.
Qed.

(** [ReadResource] for a uri no resource has answers with no contents, the
    session untouched, and not with an error; otherwise it is the read of
    the first resource with that uri, and what that read throws is thrown
    on: nothing is caught, unlike in [CallTool]. *)
Theorem resources_are_read_by_uri (resources : list Resource) (requested : string)
  (c : Context) :
  (~ In requested (map uri (listResources resources)) ->
   readResource resources requested c = (Returned [], c)) /\
  (forall before resource after,
      resources = (before ++ resource :: after)%list ->
      uri (resourceSchema resource) = requested ->
      (forall r, In r before -> uri (resourceSchema r) <> requested) ->
      readResource resources requested c = read resource requested c) /\
  (forall e c',
      readResource resources requested c = (Threw e, c') ->
      exists resource, In resource resources /\
                       uri (resourceSchema resource) = requested /\
                       read resource requested c = (Threw e, c')).
Proof.
  unfold readResource, listResources. rewrite map_map. repeat split.
  - intros Hno.
    assert (Hf : find (fun r => String.eqb (uri (resourceSchema r)) requested) resources
                 = None).
    { apply find_none_iff. intros r Hin. apply String.eqb_neq. intros Hu.
      apply Hno. apply in_map_iff. now exists r. }
    now rewrite Hf.
  - intros before resource after Hr Hu Hb.
    assert (Hf : find (fun r => String.eqb (uri (resourceSchema r)) requested) resources
                 = Some resource).
    { apply find_first. exists before, after. repeat split; auto.
      - now apply String.eqb_eq.
      - intros b Hin. apply String.eqb_neq. now apply Hb. }
    now rewrite Hf.
  - intros e c'.
    destruct (find _ resources) as [resource|] eqn:Hf; [|discriminate].
    apply find_some in Hf as [Hin Hu]. apply String.eqb_eq in Hu.
    intros H. now exists resource.
Qed.

(** ** The list of servers *)

Lemma indexOf_range (server : ServerHandle) (servers : list ServerHandle) :
  (-1 <= indexOf server servers < Z.of_nat (List.length servers))%Z.
Proof.
  induction servers as [|s rest IH]; simpl; [lia|].
  destruct (Nat.eqb s server); [lia|].
  destruct (indexOf server rest); lia.
Qed.

Lemma indexOf_absent (server : ServerHandle) (servers : list ServerHandle) :
  indexOf server servers = (-1)%Z <-> ~ In server servers.
Proof.
  induction servers as [|s rest IH]; simpl; [tauto|].
  destruct (Nat.eqb_spec s server) as [->|Hne].
  - split; [discriminate | tauto].
  - pose proof (indexOf_range server rest) as Hr.
    destruct (indexOf server rest) eqn:Hi.
    + split; [discriminate|]. intros H. exfalso. assert (~ In server rest) by tauto.
      apply IH in H0. discriminate.
    + split; [lia|]. intros H. exfalso. assert (~ In server rest) by tauto.
      apply IH in H0. discriminate.
    + split; [|reflexivity]. intros _ [H|H]; [congruence|].
      assert (Hn : Z.neg p = (-1)%Z) by lia. now apply IH in Hn.
Qed.

Lemma splice1_next (index : Z) (s : ServerHandle) (rest : list ServerHandle) :
  (0 <= index)%Z -> splice1 (index + 1) (s :: rest) = s :: splice1 index rest.
Proof.
  intros H. unfold splice1.
  replace (Z.to_nat (index + 1)) with (S (Z.to_nat index)) by lia.
  reflexivity.
Qed.

(** [splice] at the index [indexOf] gives takes out the first occurrence. *)
Lemma splice1_indexOf (server : ServerHandle) (servers : list ServerHandle) :
  In server servers ->
  exists before after,
    servers = (before ++ server :: after)%list /\ ~ In server before /\
    splice1 (indexOf server servers) servers = (before ++ after)%list.
Proof.
  induction servers as [|s rest IH]; [intros []|]. intros Hin. cbn [indexOf].
  destruct (Nat.eqb_spec s server) as [->|Hne].
  - exists [], rest. repeat split; auto.
  - destruct Hin as [H|Hin]; [congruence|].
    destruct (IH Hin) as (before & after & Hr & Hb & Hs).
    pose proof (indexOf_range server rest) as Hrange.
    assert (Hpos : (0 <= indexOf server rest)%Z).
    { destruct (Z.eq_dec (indexOf server rest) (-1)) as [Hm|Hm]; [|lia].
      apply indexOf_absent in Hm. contradiction. }
    exists (s :: before), after. split; [simpl; now rewrite <- Hr|].
    split; [simpl; intros [H|H]; [congruence | contradiction]|].
    assert (Hidx : match indexOf server rest with
                   | Z.neg _ => (-1)%Z
                   | i => (i + 1)%Z
                   end = (indexOf server rest + 1)%Z)
      by (destruct (indexOf server rest); [reflexivity | reflexivity | lia]).
    rewrite Hidx, splice1_next by exact Hpos.
    simpl. now rewrite Hs.
Qed.

(** What [ServerList.close] leaves of the list. *)
Lemma ServerList_close_list (closeThrows : ServerHandle -> option JsError)
  (server : ServerHandle) (servers : list ServerHandle) (closed : Closed) :
  (~ In server servers /\
   fst (snd (ServerList_close closeThrows server (servers, closed))) = servers) \/
  (exists before after,
      servers = (before ++ server :: after)%list /\ ~ In server before /\
      fst (snd (ServerList_close closeThrows server (servers, closed)))
      = (before ++ after)%list).
Proof.
  unfold ServerList_close, closeServer; simpl.
  destruct (Z.eqb_spec (indexOf server servers) (-1)) as [Hi|Hi].
  - apply indexOf_absent in Hi. left. destruct (closeThrows server); simpl; auto.
  - assert (Hin : In server servers).
    { destruct (in_dec Nat.eq_dec server servers) as [H|H]; [exact H|].
      apply indexOf_absent in H. contradiction. }
    destruct (splice1_indexOf server servers Hin) as (before & after & Hs & Hb & Hr).
    right; exists before, after. destruct (closeThrows server); simpl; auto.
Qed.

Section ServerListFacts.

Variable closeThrows : ServerHandle -> option JsError.
Variable serverFactory : Async Closed ServerHandle.

Lemma closeEach_closed (servers : list ServerHandle) (closed : Closed) :
  snd (closeEach closeThrows servers closed) = (closed ++ servers)%list.
Proof.
  revert closed; induction servers as [|s rest IH]; intros closed; simpl.
  - now rewrite app_nil_r.
  - unfold closeServer. destruct (closeThrows s); simpl;
      specialize (IH (push closed s));
      destruct (closeEach closeThrows rest (push closed s)); simpl in *;
      rewrite IH; unfold push; now rewrite <- app_assoc.
Qed.

Lemma closeEach_outcomes (servers : list ServerHandle) (closed : Closed) :
  fst (closeEach closeThrows servers closed)
  = map (fun s => match closeThrows s with
                  | Some e => Threw e
                  | None => Returned tt
                  end) servers.
Proof.
  revert closed; induction servers as [|s rest IH]; intros closed; simpl; [reflexivity|].
  unfold closeServer. destruct (closeThrows s); simpl;
    specialize (IH (push closed s));
    destruct (closeEach closeThrows rest (push closed s)); simpl in *; now rewrite IH.
Qed.

End ServerListFacts.

(** [ServerList.close] calls [close()] on the server it is given, in the
    list or not, and passes on what that throws.  The list is updated
    before, so also when [close()] throws: a server that is not in the list
    leaves it as it was, otherwise its first occurrence is taken out and
    the other servers keep their order. *)
Theorem close_takes_the_server_off_the_list
  (closeThrows : ServerHandle -> option JsError)
  (server : ServerHandle) (servers : list ServerHandle) (closed : Closed) :
  snd (snd (ServerList_close closeThrows server (servers, closed)))
  = (closed ++ [server])%list /\
  fst (ServerList_close closeThrows server (servers, closed))
  = match closeThrows server with
    | Some e => Threw e
    | None => Returned tt
    end /\
  ((~ In server servers /\
    fst (snd (ServerList_close closeThrows server (servers, closed))) = servers) \/
   (exists before after,
       servers = (before ++ server :: after)%list /\ ~ In server before /\
       fst (snd (ServerList_close closeThrows server (servers, closed)))
       = (before ++ after)%list)).
Proof.
  split; [|split].
  - unfold ServerList_close, closeServer; simpl. now destruct (closeThrows server).
  - unfold ServerList_close, closeServer; simpl. now destruct (closeThrows server).
  - apply ServerList_close_list.
Qed.

Lemma app_cons_unique (server : ServerHandle) (l1 l2 r1 r2 : list ServerHandle) :
  (l1 ++ server :: r1)%list = (l2 ++ server :: r2)%list ->
  ~ In server l1 -> ~ In server l2 -> l1 = l2 /\ r1 = r2.
Proof.
  revert l2; induction l1 as [|x l1 IH]; intros l2 H H1 H2.
  - destruct l2 as [|y l2]; simpl in H; inversion H; subst; auto.
    exfalso; apply H2; now left.
  - destruct l2 as [|y l2]; simpl in H; inversion H; subst.
    + exfalso; apply H1; now left.
    + destruct (IH l2 H4) as [-> ->]; auto.
      * intros Hin; apply H1; now right.
      * intros Hin; apply H2; now right.
Qed.

(** A server the factory has just made, and that was not in the list, is
    put at its end by [ServerList.create]; closing it gives the list back
    as it was before.  When the factory throws, the list is as it was. *)
Theorem create_then_close_restores_the_list
  (closeThrows : ServerHandle -> option JsError)
  (serverFactory : Async Closed ServerHandle)
  (servers : list ServerHandle) (closed closed' : Closed) (server : ServerHandle) :
  serverFactory closed = (Returned server, closed') ->
  ~ In server servers ->
  ServerList_create serverFactory (servers, closed)
  = (Returned server, ((servers ++ [server])%list, closed')) /\
  fst (snd (ServerList_close closeThrows server ((servers ++ [server])%list, closed')))
  = servers.
Proof.
  intros Hf Hnew. split.
  - unfold ServerList_create; simpl. now rewrite Hf.
  - destruct (ServerList_close_list closeThrows server (servers ++ [server])%list closed')
      as [[Hno _]|(before & after & Hs & Hb & Hr)].
    + exfalso. apply Hno. apply in_or_app; right; now left.
    + rewrite Hr. destruct (app_cons_unique server servers before [] after Hs Hnew Hb)
        as [-> <-]. now rewrite app_nil_r.
Qed.

(** [ServerList.closeAll] calls [close()] on every server of the list, in
    order, whether or not an earlier one throws; it returns exactly when
    none throws, and otherwise throws what one of them threw.  The list is
    left as it was: the closed servers stay in it. *)
Theorem closeAll_closes_every_server_and_keeps_the_list
  (closeThrows : ServerHandle -> option JsError)
  (servers : list ServerHandle) (closed : Closed) :
  snd (ServerList_closeAll closeThrows (servers, closed))
  = (servers, (closed ++ servers)%list) /\
  (fst (ServerList_closeAll closeThrows (servers, closed)) = Returned tt <->
   forall s, In s servers -> closeThrows s = None) /\
  (forall e, fst (ServerList_closeAll closeThrows (servers, closed)) = Threw e ->
             exists s, In s servers /\ closeThrows s = Some e).
Proof.
  unfold ServerList_closeAll; simpl.
  pose proof (closeEach_closed closeThrows servers closed) as Hc.
  pose proof (closeEach_outcomes closeThrows servers closed) as Ho.
  destruct (closeEach closeThrows servers closed) as [outcomes closed']; simpl in *.
  subst. split; [reflexivity|]. split.
  - induction servers as [|s rest IH]; simpl.
    + split; [intros _ s [] | reflexivity].
    + destruct (closeThrows s) eqn:Hs.
      * split; [discriminate|]. intros H. specialize (H s (or_introl eq_refl)). congruence.
      * rewrite IH. split.
        -- intros H s' [<-|Hin]; auto.
        -- intros H s' Hin; apply H; now right.
  - induction servers as [|s rest IH]; simpl; intros e; [discriminate|].
    destruct (closeThrows s) eqn:Hs.
    + intros H; inversion H; subst. exists s; auto.
    + intros H. destruct (IH e H) as (s' & Hin & He). exists s'; auto.
Qed.

(** ** The schemas *)

Lemma zString_inv (path : list string) (v : JsValue) (s : string) :
  zString path v = inl s <-> v = JsString s.
Proof. destruct v; simpl; split; intros H; inversion H; reflexivity. Qed.

Lemma elementSchema_accepts (fields : list (string * JsValue)) (e r : string) :
  getField "element" fields = JsString e ->
  getField "ref" fields = JsString r ->
  elementSchema_parse (JsObject fields) = Returned {| element := e; ref := r |}.
Proof. intros He Hr; unfold elementSchema_parse; now rewrite He, Hr. Qed.

(** The schemas made with [elementSchema.extend] accept only what
    [elementSchema] accepts, and read the same element and reference. *)
Theorem extended_schemas_refine_the_element_schema (params : JsValue) :
  (forall t, typeSchema_parse params = Returned t ->
             elementSchema_parse params
             = Returned {| element := type_element t; ref := type_ref t |}) /\
  (forall t, selectOptionSchema_parse params = Returned t ->
             elementSchema_parse params
             = Returned {| element := option_element t; ref := option_ref t |}) /\
  (forall t, selectRadioSchema_parse params = Returned t ->
             elementSchema_parse params
             = Returned {| element := radio_element t; ref := radio_ref t |}).
Proof.
  repeat split; intros t;
    destruct params as [| | | | | |fields]; try discriminate;
    [ unfold typeSchema_parse | unfold selectOptionSchema_parse
    | unfold selectRadioSchema_parse ];
    destruct (zString ["element"] (getField "element" fields)) as [e|] eqn:He;
    destruct (zString ["ref"] (getField "ref" fields)) as [r|] eqn:Hr;
    try (repeat match goal with |- context [match ?x with inl _ => _ | inr _ => _ end] =>
                  destruct x end; discriminate);
    apply zString_inv in He, Hr;
    repeat match goal with |- context [match ?x with inl _ => _ | inr _ => _ end] =>
             destruct x end; try discriminate;
    intros H; inversion H; subst; simpl; now apply elementSchema_accepts.
Qed.

Lemma zStringItems_strings (path : list string) (index : N) (vs : list string) :
  zStringItems path index (map JsString vs) = (vs, []).
Proof.
  revert index; induction vs as [|v vs IH]; intros index; simpl; [reflexivity|].
  now rewrite IH.
Qed.

Lemma zStringItems_inv (path : list string) (index : N) (items : list JsValue)
  (vs : list string) :
  zStringItems path index items = (vs, []) -> items = map JsString vs.
Proof.
  revert index vs; induction items as [|v items IH]; intros index vs; simpl.
  - intros H; inversion H; reflexivity.
  - destruct (zStringItems path (index + 1) items) as [values issues] eqn:Hi.
    destruct (zString (path ++ [showN index])%list v) as [s|here] eqn:Hs.
    + intros H; inversion H; subst. apply zString_inv in Hs; subst.
      simpl. f_equal. now apply (IH (index + 1)%N).
    + destruct v; simpl in Hs; inversion Hs; subst; simpl; intros H; inversion H.
Qed.

Lemma zStringArray_inv (path : list string) (v : JsValue) (vs : list string) :
  zStringArray path v = inl vs <-> v = JsArray (map JsString vs).
Proof.
  split.
  - destruct v; simpl; try discriminate.
    destruct (zStringItems path 0 items) as [values [|i issues]] eqn:Hi; [|discriminate].
    intros H; inversion H; subst. f_equal. now apply zStringItems_inv in Hi.
  - intros ->; simpl. now rewrite zStringItems_strings.
Qed.

(** [selectOptionSchema] accepts an object exactly when its element and
    reference are strings and its values an array of strings, the empty
    array among them; the values are read in the order of the array. *)
Theorem select_option_arguments_round_trip (fields : list (string * JsValue))
  (t : SelectOptionParams) :
  selectOptionSchema_parse (JsObject fields) = Returned t <->
  getField "element" fields = JsString (option_element t) /\
  getField "ref" fields = JsString (option_ref t) /\
  getField "values" fields = JsArray (map JsString (values t)).
Proof.
  unfold selectOptionSchema_parse. split.
  - destruct (zString ["element"] (getField "element" fields)) as [e|] eqn:He;
      destruct (zString ["ref"] (getField "ref" fields)) as [r|] eqn:Hr;
      destruct (zStringArray ["values"] (getField "values" fields)) as [vs|] eqn:Hv;
      try discriminate.
    intros H; inversion H; subst; simpl.
    apply zString_inv in He, Hr. apply zStringArray_inv in Hv. auto.
  - intros (He & Hr & Hv).
    apply (zString_inv ["element"]) in He. apply (zString_inv ["ref"]) in Hr.
    apply (zStringArray_inv ["values"]) in Hv.
    rewrite He, Hr, Hv. now destruct t.
Qed.

(** ** What the handlers plan *)

Section Plans.

Context {E : Externals}.

Lemma screenshotLocator_none (snap : PageSnapshot) (r : option string)
  (target : option Locator) :
  Tools.screenshotLocator snap r = Returned target ->
  (target = None <-> provided r = false).
Proof.
  unfold Tools.screenshotLocator. destruct r as [s|]; simpl.
  - destruct (truthy s).
    + destruct (refLocator snap s); [|discriminate].
      intros H; inversion H; subst; split; discriminate.
    + intros H; inversion H; subst; split; reflexivity.
  - intros H; inversion H; subst; split; reflexivity.
Qed.

Lemma screenshotSchema_refined (params : JsValue) (v : ScreenshotParams) :
  screenshotSchema_parse params = Returned v ->
  provided (shot_element v) = provided (shot_ref v).
Proof.
  unfold screenshotSchema_parse. destruct params; try discriminate.
  destruct (zBooleanOptional _ _), (zStringOptional _ _), (zStringOptional _ _);
    try discriminate.
  destruct (Bool.eqb (provided o0) (provided o1)) eqn:Hb; [|discriminate].
  intros H; inversion H; subst; simpl. now apply Bool.eqb_prop.
Qed.

End Plans.

(** A screenshot that [screenshot.handle] plans is of an element exactly
    when a reference that is not empty was given, and then an element
    description was given too (the refinement of the schema).  The options
    are PNG without quality when [raw] is true and JPEG of quality 50
    otherwise, the file written has the extension of that type, and the
    image the deferred operation returns has its MIME type.  The trace has
    two lines. *)
Theorem screenshot_target_and_format {E : Externals}
  (params : JsValue) (c c' : Context) (pending : PendingAction) :
  handle Tools.screenshot params c = (Returned pending, c') ->
  exists v target options,
    screenshotSchema_parse params = Returned v /\
    action pending = Some (TakeScreenshot target options) /\
    provided (shot_element v) = provided (shot_ref v) /\
    (target = None <-> provided (shot_ref v) = false) /\
    options_type options = (if flag (raw v) then png else jpeg) /\
    quality options = (if flag (raw v) then None else Some 50%N) /\
    path options = screenshotFileStem ++ "." ++ fileTypeName (options_type options) /\
    List.length (code pending) = 2%nat /\
    (forall p payload p',
        runAction (TakeScreenshot target options) p = (Returned payload, p') ->
        exists data,
          payload = [ImageContent data
                       ("image/" ++ fileTypeName (options_type options))]).
Proof.
  intros H. unfold Tools.screenshot in H. cbn [handle] in H.
  unfold bind, lift, ret, currentTabOrDie in H.
  destruct (screenshotSchema_parse params) as [v|] eqn:Hv; [|discriminate].
  destruct (currentTab c) as [t|]; [|discriminate].
  destruct (snapshotOrDie t) as [snap|]; [|discriminate].
  destruct (Tools.screenshotLocator snap (shot_ref v)) as [target|] eqn:Hl; [|discriminate].
  inversion H; subst; clear H. cbn [action code].
  eexists v, target, _. split; [reflexivity|]. split; [reflexivity|].
  split; [now apply (screenshotSchema_refined params)|].
  split; [now apply (screenshotLocator_none snap)|].
  cbn [options_type quality path].
  split; [reflexivity|]. split; [now destruct (flag (raw v))|].
  split; [reflexivity|]. split; [now destruct target|].
  intros p payload p'. cbn [runAction].
  destruct (issue _ p) as [[[]|e] p1]; [|discriminate].
  intros Hr; inversion Hr; subst. eexists.
  cbn [options_type]. now destruct (flag (raw v)).
Qed.

(** What [type.handle] plans: one step that fills the text in, or presses
    it key by key when [slowly] is true, then the Enter key when [submit]
    is true and only then; never anything else.  The trace has two lines
    for each step. *)
Theorem typing_is_one_step_then_enter {E : Externals}
  (params : JsValue) (c c' : Context) (pending : PendingAction) :
  handle Tools.type params c = (Returned pending, c') ->
  exists v target,
    typeSchema_parse params = Returned v /\
    action pending
    = Some (RunSteps ((if flag (slowly v)
                       then PressSequentially target (text v)
                       else Fill target (text v))
                        :: (if flag (submit v) then [Press target "Enter"] else []))) /\
    List.length (code pending) = (if flag (submit v) then 4 else 2)%nat.
Proof.
  intros H. unfold Tools.type in H. cbn [handle] in H.
  unfold bind, lift, ret, currentTabOrDie in H.
  destruct (typeSchema_parse params) as [v|] eqn:Hv; [|discriminate].
  destruct (currentTab c) as [t|]; [|discriminate].
  destruct (snapshotOrDie t) as [snap|]; [|discriminate].
  destruct (refLocator snap (type_ref v)) as [target|]; [|discriminate].
  exists v, target. split; [reflexivity|].
  unfold Tools.typePlan in H.
  destruct (flag (slowly v)), (flag (submit v)); inversion H; subst; clear H;
    split; reflexivity.
Qed.

Section Flags.

Context {E : Externals}.

Lemma handlers_flags (tool : Tool) (params : JsValue) :
  In tool Tools.all -> yields (flagsOf (name (schema tool))) (handle tool params).
Proof.
  unfold Tools.all; simpl.
  intros [<-|[<-|[<-|[<-|[<-|[<-|[<-|[<-|[]]]]]]]]]; cbn [handle Tools.snapshot Tools.click
    Tools.drag Tools.hover Tools.type Tools.selectOption Tools.selectRadio Tools.screenshot
    schema name];
    repeat (apply yields_bind; intros ?);
    try match goal with |- yields _ (let (_, _) := ?x in _) => destruct x end;
    apply yields_ret; unfold flagsOf; cbn [captureSnapshot waitForNetwork action];
    (split; [reflexivity|]); split; split;
    try (intros [H|H]; discriminate); try discriminate; auto.
Qed.

End Flags.

(** Every tool of [snapshot.ts] asks for a new Snapshot after its action.
    The wait for the network is asked for by all but [browser_snapshot] and
    [browser_take_screenshot], and only [browser_snapshot] plans no
    deferred operation. *)
Theorem every_tool_asks_for_a_new_snapshot {E : Externals}
  (tool : Tool) (params : JsValue) (c c' : Context) (pending : PendingAction) :
  In tool Tools.all ->
  handle tool params c = (Returned pending, c') ->
  captureSnapshot pending = true /\
  (waitForNetwork pending = false <->
   name (schema tool) = "browser_snapshot"
   \/ name (schema tool) = "browser_take_screenshot") /\
  (action pending = None <-> name (schema tool) = "browser_snapshot").
Proof.
  intros Hin Hh. exact (handlers_flags tool params Hin c pending c' Hh).
Qed.

(** The eight tools have eight names: each is the tool [CallTool] finds
    under its own name, and [ListTools] lists no name twice. *)
Theorem tools_answer_to_their_own_names {E : Externals} (arguments : JsValue) :
  map (fun tool => lookup Tools.all {| params_name := name (schema tool);
                                       params_arguments := arguments |})
    Tools.all
  = map Some Tools.all /\
  NoDup (map name (listTools Tools.all)).
Proof.
  split; [reflexivity|].
  cbn. repeat constructor; simpl; intuition discriminate.
Qed.

(** ** Which references the resolver rewrites *)

Lemma parseInt_digits (d : string) :
  d <> "" -> allDigits d = true -> exists g, parseInt d = Int g.
Proof.
  destruct d as [|c d]; [congruence|]. simpl. intros _ H.
  apply andb_prop in H as [Hc _]. rewrite Hc. eauto.
Qed.

(** The decimal rendering of a number has no leading zero. *)
Lemma showN_canonical (g : N) (x : string) : showN g = String "0" x -> x = "".
Proof.
  unfold showN. intros H.
  assert (Hu : exists d, N.to_uint g = Decimal.D0 d /\ NilEmpty.string_of_uint d = x).
  { destruct (N.to_uint g); simpl in H; inversion H; eauto. }
  destruct Hu as (d & Hd & <-).
  assert (Hn : N.to_uint g = Decimal.unorm (N.to_uint g))
    by (rewrite <- DecimalN.Unsigned.to_of, DecimalN.Unsigned.of_to; reflexivity).
  rewrite Hd in Hn.
  destruct (Decimal.nzhead (Decimal.D0 d)) eqn:Hz;
    try (rewrite DecimalFacts.unorm_nzhead in Hn by (rewrite Hz; discriminate);
         symmetry in Hn; now apply DecimalFacts.nzhead_nonzero in Hn).
  assert (Hzero : Decimal.unorm (Decimal.D0 d) = Decimal.zero) by (apply DecimalFacts.unorm_0; exact Hz).
  rewrite Hzero in Hn. inversion Hn. reflexivity.
Qed.

(** The prefixes the resolver computes, for any reference. *)
Lemma prefixes_of (r : string) :
  exists g, ownPrefix r = "s" ++ showN g ++ "e" /\
            expectedPrefix r = "s" ++ showN (g + 1) ++ "e".
Proof.
  unfold ownPrefix, expectedPrefix.
  destruct (matchGeneration r) as [d|] eqn:Hm.
  - apply matchGeneration_inv in Hm as (pre & post & _ & Hne & Hd).
    assert (Ht : truthy d = true) by (destruct d; [congruence | reflexivity]).
    unfold orElse; rewrite Ht.
    destruct (parseInt_digits d Hne Hd) as [g Hg]. rewrite Hg. now exists g.
  - now exists 0%N.
Qed.

(** The resolver changes a reference only if it begins with [s<g>e], [g]
    in decimal without leading zeros; what it returns then is [s<g+1>e]
    and digits, a reference that follows [ref=] in the text of the new
    Snapshot.  Every other reference is returned as it is. *)
Theorem resolver_rewrites_only_canonical_references (p : Page) (r : string) :
  safeGeneration r ->
  fst (handleStaleRef p r) = Returned r \/
  exists g rest ds,
    r = "s" ++ showN g ++ "e" ++ rest /\
    ds <> "" /\ allDigits ds = true /\
    fst (handleStaleRef p r) = Returned ("s" ++ showN (g + 1) ++ "e" ++ ds) /\
    occursIn ("ref=" ++ "s" ++ showN (g + 1) ++ "e" ++ ds)
      (PageSnapshot_text (fst (PageSnapshot_create p))).
Proof.
  intros _. rewrite handleStaleRef_result.
  destruct (startsWith r (ownPrefix r)) eqn:Hs; [|now left].
  destruct (prefixes_of r) as (g & Ho & He).
  unfold startsWith in Hs.
  destruct (dropPrefix (ownPrefix r) r) as [rest|] eqn:Hd; [|discriminate].
  apply dropPrefix_inv in Hd. rewrite Ho in Hd. rewrite He, orElse_findRef.
  destruct (findRef _ _) as [r'|] eqn:Hf; [|now left].
  right. apply findRef_Some in Hf as (pos & (pre & ds & post & Ht & _ & Hne & Hdg & _ & ->) & _).
  exists g, rest, ds. rewrite <- !append_assoc in Hd. rewrite !append_assoc in Hd.
  split; [exact Hd|]. split; [exact Hne|]. split; [exact Hdg|].
  split; [now rewrite !append_assoc|].
  exists pre, post. rewrite Ht. now rewrite !append_assoc.
Qed.

(** A reference whose generation is written with a leading zero, such as
    [s03e5], is never repaired: the resolver returns it as it is, whatever
    the new Snapshot holds. *)
Theorem references_with_leading_zero_are_kept (p : Page) (ds rest : string) :
  ds <> "" -> allDigits ds = true ->
  fst (handleStaleRef p ("s0" ++ ds ++ "e" ++ rest))
  = Returned ("s0" ++ ds ++ "e" ++ rest).
Proof.
  intros Hne Hd. rewrite handleStaleRef_result.
  destruct (startsWith _ _) eqn:Hs; [|reflexivity]. exfalso.
  destruct (prefixes_of ("s0" ++ ds ++ "e" ++ rest)) as (g & Ho & _).
  unfold startsWith in Hs. rewrite Ho in Hs.
  destruct (dropPrefix _ _) as [x|] eqn:Hx; [|discriminate].
  apply dropPrefix_inv in Hx. cbn [append] in Hx. inversion Hx as [Heq].
  assert (Hg : String "0" ds = showN g).
  { eapply (digits_split_unique (String "0" ds) (showN g) ("e" ++ rest) ("e" ++ x)).
    - simpl; exact Hd.
    - apply showN_digits.
    - reflexivity.
    - reflexivity.
    - cbn [append]. rewrite Heq. now rewrite append_assoc. }
  symmetry in Hg. apply showN_canonical in Hg. contradiction.
Qed.

(** [click.handle] on a session with a Tab: the resolver returns a
    reference and the page has been captured once more, the Tab is left
    with the Snapshot it had (or with none), and it is in that older
    Snapshot that the reference the resolver returned is looked up: the
    handler throws when the Tab had no Snapshot or that Snapshot has no
    node with the reference, and plans the click on the node otherwise. *)
Theorem click_resolves_against_the_tab_snapshot {E : Externals}
  (c : Context) (t : Tab) (e r : string) :
  currentTab c = Some t ->
  exists r',
    fst (handleStaleRef (page t) r) = Returned r' /\
    snd (handle Tools.click (elementArguments e r) c)
    = setCurrentTab {| page := snd (PageSnapshot_create (page t));
                       currentSnapshot := currentSnapshot t |} c /\
    fst (handle Tools.click (elementArguments e r) c)
    = match currentSnapshot t with
      | None => Threw (PreconditionError "No snapshot available")
      | Some snap =>
          match refLocator snap r' with
          | Threw err => Threw err
          | Returned locator =>
              Returned {| code := [ "// Click " ++ e;
                                    "await page." ++ generateLocator locator
                                      ++ ".click();" ];
                          action := Some (RunCall (Click locator));
                          captureSnapshot := true;
                          waitForNetwork := true |}
          end
      end.
Proof.
  intros Ht.
  pose proof (handleStaleRef_result (page t) r) as Hr.
  pose proof (handleStaleRef_page (page t) r) as Hp.
  eexists. split; [exact Hr|].
  unfold Tools.click, handle, elementArguments, bind, lift, ret, currentTabOrDie, onPage,
    snapshotOrDie, setCurrentTab.
  cbn -[handleStaleRef refLocator append generateLocator PageSnapshot_create].
  rewrite !Ht.
  cbn -[handleStaleRef refLocator append generateLocator PageSnapshot_create].
  destruct (handleStaleRef (page t) r) as [o p'].
  cbn [fst snd] in Hr, Hp. subst o p'.
  cbn -[handleStaleRef refLocator append generateLocator PageSnapshot_create].
  destruct (currentSnapshot t) as [snap|]; [|split; reflexivity].
  destruct (refLocator snap _); split; reflexivity.
Qed.

(** ** The gate, for two tools at once *)

(** In no state of the session does the gate admit both a tool that
    declares no modal state and a tool that declares one: while a modal
    state is active only tools that clear one can run, and none of them can
    run otherwise. *)
Theorem gate_never_admits_both_kinds (plain clearing : Tool) (c : Context) (T : string) :
  clearsModalState plain = None ->
  clearsModalState clearing = Some T ->
  T <> "" ->
  (gateRejects plain c = false -> gateRejects clearing c = true) /\
  (gateRejects clearing c = false -> gateRejects plain c = true).
Proof.
  intros Hp Hc Hne. split.
  - intros H. apply (gate_plain plain c Hp) in H.
    destruct (gateRejects clearing c) eqn:Hg; [reflexivity|].
    apply (gate_clearing clearing c T Hc Hne) in Hg. rewrite H in Hg. destruct Hg.
  - intros H. apply (gate_clearing clearing c T Hc Hne) in H.
    destruct (gateRejects plain c) eqn:Hg; [reflexivity|].
    apply (gate_plain plain c Hp) in Hg. rewrite Hg in H. destruct H.
Qed.

(** ** The further properties at work on the examples *)

(** Server 7 is made beside servers 1 and 2, and closed again. *)
Lemma create_then_close_restores_the_list_witness :
  ServerList_create exampleFactory ([1; 2]%nat, [])
  = (Returned 7%nat, ([1; 2; 7]%nat, [])) /\
  fst (snd (ServerList_close quietClose 7%nat ([1; 2; 7]%nat, []))) = [1; 2]%nat.
Proof.
  apply (create_then_close_restores_the_list quietClose exampleFactory
           [1; 2]%nat [] [] 7%nat).
  - reflexivity.
  - simpl. intros [H|[H|[]]]; discriminate.
Defined.

(** A PNG of the viewport. *)
Lemma screenshot_target_and_format_witness :
  exists v (target : option Locator) options,
    screenshotSchema_parse rawViewport = Returned v /\
    target = None /\
    options_type options = png /\
    path options = "/tmp/page.png".
Proof.
  destruct (@screenshot_target_and_format exampleWorld rawViewport exampleContext
              exampleContext
              {| code := [ "// Screenshot viewport and save it as /tmp/page.png";
                           "await page.screenshot({ path: '/tmp/page.png' });" ];
                 action := Some (TakeScreenshot None
                                   {| options_type := png; quality := None;
                                      scale := "css"; path := "/tmp/page.png" |});
                 captureSnapshot := true;
                 waitForNetwork := false |} eq_refl)
    as (v & target & options & Hv & Ha & _ & Ht & Hty & _ & Hp & _).
  exists v, target, options.
  assert (Hraw : raw v = Some true) by (cbv in Hv; inversion Hv; reflexivity).
  assert (Href : shot_ref v = None) by (cbv in Hv; inversion Hv; reflexivity).
  rewrite Hraw in Hty. rewrite Hty in Hp.
  split; [exact Hv|]. split; [apply Ht; now rewrite Href|]. split; [exact Hty | exact Hp].
Defined.

(** Filling the link with a text and submitting. *)
Lemma typing_is_one_step_then_enter_witness :
  exists pending v target,
    handle (@Tools.type exampleWorld) typeAndSubmit exampleContext
    = (Returned pending, exampleContext) /\
    typeSchema_parse typeAndSubmit = Returned v /\
    action pending
    = Some (RunSteps ((if flag (slowly v)
                       then PressSequentially target (text v)
                       else Fill target (text v))
                        :: (if flag (submit v) then [Press target "Enter"] else []))) /\
    List.length (code pending) = (if flag (submit v) then 4 else 2)%nat.
Proof.
  assert (H : exists p, handle (@Tools.type exampleWorld) typeAndSubmit exampleContext
                        = (Returned p, exampleContext)) by (eexists; reflexivity).
  destruct H as [p Hp]. exists p.
  destruct (@typing_is_one_step_then_enter exampleWorld typeAndSubmit exampleContext
              exampleContext p Hp) as (v & target & Hv & Ha & Hl).
  exists v, target.
  split; [exact Hp|]. split; [exact Hv|]. split; [exact Ha | exact Hl].
Defined.

(** [browser_hover] asks for the network wait and a new Snapshot. *)
Lemma every_tool_asks_for_a_new_snapshot_witness :
  exists pending,
    handle (@Tools.hover exampleWorld) (elementArguments "Home link" "s3e2") exampleContext
    = (Returned pending, exampleContext) /\
    captureSnapshot pending = true /\
    waitForNetwork pending = true.
Proof.
  assert (H : exists p, handle (@Tools.hover exampleWorld)
                          (elementArguments "Home link" "s3e2") exampleContext
                        = (Returned p, exampleContext)) by (eexists; reflexivity).
  destruct H as [p Hp]. exists p.
  destruct (@every_tool_asks_for_a_new_snapshot exampleWorld (@Tools.hover exampleWorld)
              (elementArguments "Home link" "s3e2") exampleContext exampleContext p
              (or_intror (or_intror (or_intror (or_introl eq_refl)))) Hp)
    as (Hc & Hw & _).
  split; [exact Hp|]. split; [exact Hc|].
  destruct (waitForNetwork p); [reflexivity|].
  destruct (proj1 Hw eq_refl) as [H|H]; discriminate.
Defined.

(** [s3e2] on the page of the examples is rewritten to [s4e1]; it begins
    with [s3e]. *)
Lemma resolver_rewrites_only_canonical_references_witness :
  fst (handleStaleRef examplePage "s3e2") = Returned "s3e2" \/
  exists g rest ds,
    "s3e2" = "s" ++ showN g ++ "e" ++ rest /\
    ds <> "" /\ allDigits ds = true /\
    fst (handleStaleRef examplePage "s3e2") = Returned ("s" ++ showN (g + 1) ++ "e" ++ ds) /\
    occursIn ("ref=" ++ "s" ++ showN (g + 1) ++ "e" ++ ds)
      (PageSnapshot_text (fst (PageSnapshot_create examplePage))).
Proof.
  apply (resolver_rewrites_only_canonical_references examplePage "s3e2").
  vm_compute; discriminate.
Defined.

(** [s03e2] on the page of the examples. *)
Lemma references_with_leading_zero_are_kept_witness :
  fst (handleStaleRef examplePage "s03e2") = Returned "s03e2".
Proof.
  apply (references_with_leading_zero_are_kept examplePage "3" "2").
  - discriminate.
  - reflexivity.
Defined.

(** While the dialog is open the dialog tool is admitted, so
    [browser_hover] is not. *)
Lemma gate_never_admits_both_kinds_witness :
  gateRejects dialogTool dialogContext = false /\
  gateRejects (@Tools.hover exampleWorld) dialogContext = true.
Proof.
  split; [reflexivity|].
  apply (proj2 (gate_never_admits_both_kinds (@Tools.hover exampleWorld) dialogTool
                  dialogContext "dialog" eq_refl eq_refl
                  (fun H => match H with end))).
  reflexivity.
Defined.

(** [browser_click] with the current [s3e2]: the resolver returns [s4e1],
    a reference of the Snapshot it has just captured, and the handler
    looks it up in the Snapshot of generation 3 the Tab holds. *)
Lemma click_resolves_against_the_tab_snapshot_witness :
  fst (handleStaleRef examplePage "s3e2") = Returned "s4e1" /\
  refLocator (fst (PageSnapshot_create examplePage)) "s4e1"
  = Returned {| ariaRef := "s4e1"; node := "button OK" |} /\
  handle (@Tools.click exampleWorld) (elementArguments "Home link" "s3e2") exampleContext
  = (Threw (StaleOrUnknownReferenceError "s4e1"),
     {| modalStates := [];
        currentTab := Some {| page := recapturedPage;
                              currentSnapshot := Some exampleSnapshot |} |}).
Proof.
  destruct (@click_resolves_against_the_tab_snapshot exampleWorld exampleContext exampleTab
              "Home link" "s3e2" eq_refl) as (r' & Hr & Hs & Hf).
  assert (Hr' : r' = "s4e1") by (vm_compute in Hr; now inversion Hr).
  subst r'.
  split; [reflexivity|]. split; [reflexivity|].
  rewrite (surjective_pairing (handle _ _ _)), Hf, Hs. reflexivity.
Defined.

(** ** The gate on the tools of [snapshot.ts] *)

(** None of the eight tools declares a modal state it clears: each is
    admitted exactly when no modal state is active, so while one is active
    all of them are turned down. *)
Theorem snapshot_tools_wait_for_modal_states {E : Externals} (c : Context) :
  Forall (fun tool => clearsModalState tool = None /\
                      (gateRejects tool c = false <-> modalStates c = []))
    Tools.all.
Proof.
  unfold Tools.all.
  repeat constructor; apply gate_plain; reflexivity.
Qed.
